(** * Flow3rTron: the simulation core of [__init__.py]

    A shallow embedding of the game's geometry predicate ([collides]),
    the [Player], [Board] and [TronGame] classes, and the properties the
    specification states about them.

    Numbers.  The Python code computes with ints and floats.  The program
    is embedded twice.  The first embedding takes the numbers as real
    numbers [R], with exact arithmetic and the real [sin], [cos] and
    [2 * PI]; it carries the properties that do not depend on the values
    the arithmetic yields: which fields a method touches, the order of the
    loops, the structure of the dict and of the waypoint list, the latch
    of the game.  The second embedding, module [f64], takes them as IEEE
    binary64 values, every operation rounded as the interpreter rounds it,
    with [math.sin] and [math.cos] left to the C library; it carries the
    properties of [collides], [move], [set_direction] and of a tick that
    speak of the computed values.

    Exceptions.  A method that can raise ([IndexError] on an empty waypoint
    list, [KeyError] on a missing player) returns an [option]; [None] is the
    raised exception.  The [OverflowError] and the [ValueError] that
    [move] can raise on floats are in [f64] only. *)

From Stdlib Require Import Floats.
From Stdlib Require Import Reals Lra ZArith List Bool.
Import ListNotations.

Open Scope R_scope.

(** ** Python's comparison operators on numbers, as booleans *)

Definition Rltb (x y : R) : bool := if Rlt_dec x y then true else false.
Definition Rleb (x y : R) : bool := if Rle_dec x y then true else false.
Definition Reqb (x y : R) : bool := if Req_dec_T x y then true else false.

(** [x % y] on numbers: the result has the sign of the divisor,
    [x - y * floor (x / y)]. *)
Definition pymod (x y : R) : R := x - y * IZR (Int_part (x / y)).

(** [range(start, stop, step)] for a positive step. *)
Definition range (start stop step : nat) : list nat :=
  map (fun k => (start + k * step)%nat)
      (seq 0 (Nat.div (stop - start + step - 1) step)).

(** A generator (or any iterable consumed once): the finite list of the
    values it yields, or [None] when advancing it raises. *)
Definition iterable (A : Type) : Type := option (list A).

(** ** The part of Python's [math] module the game uses *)

Module math.

Definition tau : R := 2 * PI.

Definition rel_tol : R := 1 / 10 ^ 9.   (* default rel_tol=1e-09 *)
Definition abs_tol : R := 0.            (* default abs_tol=0.0 *)

(** [math.isclose(a, b)] with the default tolerances:
    [abs(a-b) <= max(rel_tol * max(abs(a), abs(b)), abs_tol)]. *)
Definition isclose (a b : R) : bool :=
  Rleb (Rabs (a - b)) (Rmax (rel_tol * Rmax (Rabs a) (Rabs b)) abs_tol).

End math.

(** [math.isclose] on IEEE binary64 values, as CPython computes it: used
    to check on actual floats what the real-number model says about the
    zero test. *)

Module binary64.

Definition rel_tol : float := 0x1.12e0be826d695p-30%float.  (* 1e-09 *)
Definition abs_tol : float := 0%float.

Definition isclose (a b : float) : bool :=
  if PrimFloat.eqb a b then true
  else if PrimFloat.is_infinity a || PrimFloat.is_infinity b then false
  else
    let diff := PrimFloat.abs (PrimFloat.sub b a) in
    (PrimFloat.leb diff (PrimFloat.abs (PrimFloat.mul rel_tol b)) ||
     PrimFloat.leb diff (PrimFloat.abs (PrimFloat.mul rel_tol a))) ||
    PrimFloat.leb diff abs_tol.

(** The smallest positive binary64 value, 2^-1074. *)
Definition smallest : float := 0x1p-1074%float.

(** The binary64 value nearest to 1e-12. *)
Definition tiny : float := 0x1.19799812dea11p-40%float.

End binary64.

(** ** Geometry *)

Definition Point : Type := R * R.
Definition Segment : Type := Point * Point.

(** Tuple equality [trace == my_latest_trace]: component-wise [==]. *)
Definition Point_eqb (p q : Point) : bool :=
  Reqb (fst p) (fst q) && Reqb (snd p) (snd q).
Definition Segment_eqb (s t : Segment) : bool :=
  Point_eqb (fst s) (fst t) && Point_eqb (snd s) (snd t).

(** The three cross terms of [collides]; [a = (p1, p2)], [b = (p3, p4)]. *)
Definition denominator_a (a b : Segment) : R :=
  let p1 := fst a in let p3 := fst b in let p4 := snd b in
  ((fst p4 - fst p3) * (snd p1 - snd p3)) -
  ((snd p4 - snd p3) * (fst p1 - fst p3)).

Definition denominator_b (a b : Segment) : R :=
  let p1 := fst a in let p2 := snd a in let p3 := fst b in
  ((fst p2 - fst p1) * (snd p1 - snd p3)) -
  ((snd p2 - snd p1) * (fst p1 - fst p3)).

Definition numerator (a b : Segment) : R :=
  let p1 := fst a in let p2 := snd a in let p3 := fst b in let p4 := snd b in
  (snd p4 - snd p3) * (fst p2 - fst p1) - (fst p4 - fst p3) * (snd p2 - snd p1).

Definition u_a (a b : Segment) : R := denominator_a a b / numerator a b.
Definition u_b (a b : Segment) : R := denominator_b a b / numerator a b.

(** [collides(a, b)].  The two divisions are reached only when
    [math.isclose(numerator, 0)] is false, so the divisor is not zero
    there (lemma [collides_division_defined]). *)
Definition collides (a b : Segment) : bool :=
  if math.isclose (numerator a b) 0 && math.isclose (denominator_a a b) 0 then
    (* coincident *)
    true
  else if math.isclose (numerator a b) 0 then
    (* parallel *)
    false
  else
    (Rltb 0 (u_a a b) && Rltb (u_a a b) 1) &&
    (Rltb 0 (u_b a b) && Rltb (u_b a b) 1).

(** ** class Player *)

Module Player.

Record t : Type := mk {
  _pos : Point;
  _color : Z * Z * Z;
  _direction : R;        (* in degrees *)
  _speed : R;            (* pixel per second *)
  _traces : list Point;  (* list of (wendepunkt_x, y) *)
  _dead : bool
}.

(** [Player(start_pos)] *)
Definition init (start_pos : Point) : t :=
  mk start_pos (255, 255, 0)%Z 0 60 [start_pos] false.

(** The loop of [get_traces]: pair [last] with each following waypoint. *)
Fixpoint pair_up (last : Point) (rest : list Point) : list Segment :=
  match rest with
  | [] => []
  | trace :: rest' => (last, trace) :: pair_up trace rest'
  end.

(** [get_traces]: [self._traces[0]] raises on an empty list. *)
Definition get_traces (self : t) : iterable Segment :=
  match _traces self with
  | [] => None
  | first :: rest => Some (pair_up first (rest ++ [_pos self]))
  end.

Definition die (self : t) : t :=
  mk (_pos self) (_color self) (_direction self) (_speed self) (_traces self)
     true.

Definition is_dead (self : t) : bool := _dead self.

(** [self._traces[-1]]: [None] is the [IndexError] of an empty list. *)
Fixpoint last_trace (traces : list Point) : option Point :=
  match traces with
  | [] => None
  | [x] => Some x
  | _ :: rest => last_trace rest
  end.

(** [(self._traces[-1], self._pos)]: the segment still being drawn. *)
Definition my_latest_trace (self : t) : option Segment :=
  match last_trace (_traces self) with
  | None => None
  | Some l => Some (l, _pos self)
  end.

(** The body of the [for trace in all_traces] loop of [check_collision]. *)
Definition check_trace (latest : Segment) (self : t) (trace : Segment) : t :=
  if Segment_eqb trace latest then self
  else if collides latest trace then die self
  else self.

(** [check_collision]: a dead player returns before [all_traces] is
    advanced; the loop does not stop at the first hit. *)
Definition check_collision (self : t) (all_traces : iterable Segment)
  : option t :=
  if _dead self then Some self
  else
    match my_latest_trace self with
    | None => None
    | Some latest =>
        match all_traces with
        | None => None
        | Some traces => Some (fold_left (check_trace latest) traces self)
        end
    end.

Definition set_speed (self : t) (speed : R) : t :=
  if Rltb speed 0 then
    (* illegal speed *)
    self
  else
    mk (_pos self) (_color self) (_direction self) speed (_traces self)
       (_dead self).

Definition set_direction (self : t) (direction : R) : t :=
  if Reqb (pymod (direction - _direction self) 360) 180 then self
  else if negb (Reqb direction (_direction self)) then
    mk (_pos self) (_color self) direction (_speed self)
       (_traces self ++ [_pos self]) (_dead self)
  else self.

Definition move (self : t) (delta_ms : R) : t :=
  if _dead self then self
  else
    let dir_rad := (_direction self * math.tau) / 360 in
    let speed_ms := _speed self * delta_ms / 1000 in
    let pos := (fst (_pos self) + speed_ms * sin dir_rad,
                snd (_pos self) - speed_ms * cos dir_rad) in
    let moved :=
      mk pos (_color self) (_direction self) (_speed self) (_traces self)
         (_dead self) in
    if Rltb (120 ^ 2) (fst pos ^ 2 + snd pos ^ 2) then die moved else moved.

End Player.

(** The test of one iteration of the loop of [check_collision]: the trace
    differs from the live segment and collides with it. *)
Definition hits (latest trace : Segment) : bool :=
  negb (Segment_eqb trace latest) && collides latest trace.

(** The calls a client can make on a player. *)
Inductive call : Type :=
  | SetDirection (direction : R)
  | SetSpeed (speed : R)
  | Move (delta_ms : R)
  | CheckCollision (all_traces : list Segment).

Definition apply_call (self : Player.t) (c : call) : option Player.t :=
  match c with
  | SetDirection d => Some (Player.set_direction self d)
  | SetSpeed s => Some (Player.set_speed self s)
  | Move delta_ms => Some (Player.move self delta_ms)
  | CheckCollision all_traces => Player.check_collision self (Some all_traces)
  end.

(** The segments between consecutive waypoints, without the live one. *)
Definition completed_traces (self : Player.t) : list Segment :=
  match Player._traces self with
  | [] => []
  | first :: rest => Player.pair_up first rest
  end.

(** Two segments cross: their lines meet in one point that lies strictly
    inside both. *)
Definition crosses (a b : Segment) : Prop :=
  numerator a b <> 0 /\
  (0 < u_a a b /\ u_a a b < 1) /\ (0 < u_b a b /\ u_b a b < 1).

(** ** The input device

    [inc.captouch.petals[i].whole.pressed] of st3m's [InputController],
    for the ten petals of the badge. *)
Record InputController : Type := { petal_pressed : nat -> bool }.

(** [chain(iters)]: the iterables one after the other. *)
Fixpoint chain {A : Type} (iters : list (iterable A)) : iterable A :=
  match iters with
  | [] => Some []
  | i :: rest =>
      match i, chain rest with
      | Some xs, Some ys => Some (xs ++ ys)
      | _, _ => None
      end
  end.

(** A dict entry whose player has at least one waypoint. *)
Definition has_waypoint (kp : Z * Player.t) : Prop :=
  Player._traces (snd kp) <> [].

(** ** class Board *)

Module Board.

Definition dimx : Z := 240.
Definition dimy : Z := 240.

(** [players] is the dict player_id -> player, in insertion order. *)
Record t : Type := mk {
  players : list (Z * Player.t);
  local_player : Z
}.

Definition init : t := mk [(0%Z, Player.init (-50, 0))] 0%Z.

(** [self.players[k].f()]: [None] is the [KeyError] of a missing key. *)
Fixpoint update_player (ps : list (Z * Player.t)) (k : Z)
  (f : Player.t -> Player.t) : option (list (Z * Player.t)) :=
  match ps with
  | [] => None
  | (k', p) :: rest =>
      if Z.eqb k' k then Some ((k', f p) :: rest)
      else
        match update_player rest k f with
        | None => None
        | Some rest' => Some ((k', p) :: rest')
        end
  end.

(** True: 10 directions; False: 5 directions, the upper petals only *)
Definition all_petals : bool := false.

(** process local input: the first pressed petal sets the direction. *)
Definition process_input (self : t) (inc : InputController)
  : option (list (Z * Player.t)) :=
  let stepsize := if all_petals then 1%nat else 2%nat in
  match find (petal_pressed inc) (range 0 10 stepsize) with
  | Some i =>
      update_player (players self) (local_player self)
        (fun p => Player.set_direction p (INR i * 360 / 10))
  | None => Some (players self)
  end.

(** move players *)
Definition move_players (ps : list (Z * Player.t)) (delta_ms : R)
  : list (Z * Player.t) :=
  map (fun kp => (fst kp, Player.move (snd kp) delta_ms)) ps.

(** [chain(pl.get_traces() for pl in self.players.values())] *)
Definition all_traces (ps : list (Z * Player.t)) : iterable Segment :=
  chain (map (fun kp => Player.get_traces (snd kp)) ps).

(** check collisions: the players are checked one after the other, each
    against the traces of the dict as it is then ([checked] holds the
    players already checked, [todo] the others). *)
Fixpoint check_collisions (checked todo : list (Z * Player.t))
  : option (list (Z * Player.t)) :=
  match todo with
  | [] => Some checked
  | (k, p) :: rest =>
      match Player.check_collision p (all_traces (checked ++ todo)) with
      | None => None
      | Some p' => check_collisions (checked ++ [(k, p')]) rest
      end
  end.

(** The players once the input is processed and every player has moved. *)
Definition after_moves (self : t) (inc : InputController) (delta_ms : R)
  : option (list (Z * Player.t)) :=
  match process_input self inc with
  | None => None
  | Some ps => Some (move_players ps delta_ms)
  end.

Definition think (self : t) (inc : InputController) (delta_ms : R)
  : option t :=
  match after_moves self inc delta_ms with
  | None => None
  | Some moved =>
      match check_collisions [] moved with
      | None => None
      | Some ps' => Some (mk ps' (local_player self))
      end
  end.

Definition game_over (self : t) : bool :=
  forallb (fun kp => Player.is_dead (snd kp)) (players self).

(** Every player has a waypoint and the local player exists: what
    [Board()] sets up and [think] keeps. *)
Definition well_formed (self : t) : Prop :=
  Forall has_waypoint (players self) /\
  In (local_player self) (map fst (players self)).

End Board.

(** ** class TronGame *)

Module TronGame.

Record t : Type := mk {
  _board : Board.t;
  _done : bool;
  _start_time : Z;   (* time.time_ns() at the start *)
  _duration : R
}.

(** [TronGame()], when the clock reads [now]. *)
Definition init (now : Z) : t := mk Board.init false now 0.

Definition is_done (self : t) : bool := _done self.

(** [think]; [now] is what [time.time_ns()] returns if it is called. *)
Definition think (self : t) (inc : InputController) (delta_ms : R) (now : Z)
  : option t :=
  match Board.think (_board self) inc delta_ms with
  | None => None
  | Some board =>
      if Board.game_over board then
        if negb (_done self) then
          Some (mk board true (_start_time self)
                   (IZR (now - _start_time self) / 10 ^ 9))
        else Some (mk board (_done self) (_start_time self) (_duration self))
      else Some (mk board (_done self) (_start_time self) (_duration self))
  end.

(** One frame: the input, the elapsed milliseconds and the clock. *)
Definition frame : Type := InputController * R * Z.

(** [think] once per frame, in order. *)
Fixpoint run (self : t) (frames : list frame) : option t :=
  match frames with
  | [] => Some self
  | (inc, delta_ms, now) :: rest =>
      match think self inc delta_ms now with
      | None => None
      | Some self' => run self' rest
      end
  end.

End TronGame.

(** ** Concrete states used to exercise the contracts *)

Definition spawn : Point := (-50, 0).

(** No petal is pressed. *)
Definition no_input : InputController := {| petal_pressed := fun _ => false |}.

(** Only the petal at index 2 (72 degrees) is pressed. *)
Definition petal_2 : InputController :=
  {| petal_pressed := fun i => Nat.eqb i 2 |}.

Definition rider_a : Player.t :=
  Player.mk (50, 0) (255, 255, 0)%Z 90 60 [(-50, 0)] false.
Definition rider_b : Player.t :=
  Player.mk (0, 50) (255, 255, 0)%Z 180 60 [(0, -50)] false.
(** A player that left the arena, and a game that ended with it. *)
Definition fallen : Player.t :=
  Player.mk (-50, -130) (255, 255, 0)%Z 0 60 [(-50, 0)] true.
Definition finished_game : TronGame.t :=
  TronGame.mk (Board.mk [(0%Z, fallen)] 0%Z) true 0%Z 3.

(** ** The rest of the program *)

(** [chainva]: [chain] of its arguments. *)
Definition chainva {A : Type} (iters : list (iterable A)) : iterable A :=
  chain iters.

(** A list of calls on a player, made one after the other. *)
Fixpoint apply_calls (self : Player.t) (calls : list call)
  : option Player.t :=
  match calls with
  | [] => Some self
  | c :: rest =>
      match apply_call self c with
      | None => None
      | Some self' => apply_calls self' rest
      end
  end.

(** What a tick keeps of a dict entry: the key, and for a dead player
    its death and its position. *)
Definition entry_kept (kp kp' : Z * Player.t) : Prop :=
  fst kp' = fst kp /\
  (Player._dead (snd kp) = true ->
   Player._dead (snd kp') = true /\
   Player._pos (snd kp') = Player._pos (snd kp)).

(** The calls made on the drawing context [ctx], in order. *)
Inductive ctx_call : Type :=
  | rgb (r g b : R)
  | move_to (x y : R)
  | line_to (x y : R)
  | stroke
  | rectangle (x y w h : R)
  | fill.

(** [Player.draw]: the calls it makes on [ctx]; [None] when
    [self._traces[0]] raises. *)
Definition Player_draw (self : Player.t) : option (list ctx_call) :=
  let player_size := 10 in
  match Player._traces self with
  | [] => None
  | first :: rest =>
      Some
        ([rgb (IZR (fst (fst (Player._color self))))
              (IZR (snd (fst (Player._color self))))
              (IZR (snd (Player._color self)));
          move_to (fst first) (snd first)] ++
         map (fun trace => line_to (fst trace) (snd trace))
             (rest ++ [Player._pos self]) ++
         [stroke] ++
         (if Player._dead self then [rgb 255 0 0] else []) ++
         [rectangle (fst (Player._pos self) - player_size / 2)
                    (snd (Player._pos self) - player_size / 2)
                    player_size player_size;
          fill])
  end.

(** [Board.draw]: every player draws itself, in dict order. *)
Definition Board_draw (self : Board.t) : option (list ctx_call) :=
  chain (map (fun kp => Player_draw (snd kp)) (Board.players self)).

(** ** The program on binary64 floats

    The same program with Python's floats as IEEE binary64 values: every
    operation rounds as the interpreter does.  The ints of the program
    (the spawn point, 0, 60, 360, 180, 1000, 120**2, the petal index)
    are small and enter the arithmetic as the floats of the same value.
    [math.sin] and [math.cos] belong to the C library and are
    arguments of the model ([libm]); [x ** 2] is the correctly rounded
    square.  Tuples are compared by [==] on their numbers. *)

(** The exact value of a finite float (0 for the others). *)
Definition to_R (x : float) : R :=
  match Prim2SF x with
  | S754_finite s m e => IZR (cond_Zopp s (Zpos m)) * powerRZ 2 e
  | _ => 0
  end.

Module f64.

Definition Point : Type := float * float.
Definition Segment : Type := Point * Point.

Definition Point_eqb (p q : Point) : bool :=
  PrimFloat.eqb (fst p) (fst q) && PrimFloat.eqb (snd p) (snd q).
Definition Segment_eqb (s t : Segment) : bool :=
  Point_eqb (fst s) (fst t) && Point_eqb (snd s) (snd t).

(** The exact points of a segment. *)
Definition exact (s : Segment) : (R * R) * (R * R) :=
  ((to_R (fst (fst s)), to_R (snd (fst s))),
   (to_R (fst (snd s)), to_R (snd (snd s)))).

(** C's [fmod]: the exact remainder of the truncated division. *)
Definition fmod (x y : float) : float :=
  match Prim2SF x, Prim2SF y with
  | S754_nan, _ => nan
  | _, S754_nan => nan
  | S754_infinity _, _ => nan
  | _, S754_zero _ => nan
  | S754_zero _, _ => x
  | S754_finite _ _ _, S754_infinity _ => x
  | S754_finite sx mx ex, S754_finite _ my ey =>
      let e := Z.min ex ey in
      let r := Z.rem (Zpos mx * 2 ^ (ex - e)) (Zpos my * 2 ^ (ey - e)) in
      if (r =? 0)%Z then (if sx then (-0)%float else 0%float)
      else SF2Prim (binary_normalize prec emax (cond_Zopp sx r) e false)
  end.

(** [x % y] on floats for [y] not zero: [fmod], moved to the sign of
    [y]. *)
Definition pymod (x y : float) : float :=
  let m := fmod x y in
  if PrimFloat.eqb m 0 then
    (if PrimFloat.ltb y 0 then (-0)%float else 0%float)
  else if xorb (PrimFloat.ltb y 0) (PrimFloat.ltb m 0) then (m + y)%float
  else m.

(** [x ** 2]: [None] is the [OverflowError] of a finite [x] whose square
    is not. *)
Definition pow2 (x : float) : option float :=
  if PrimFloat.is_nan x then Some x
  else if PrimFloat.is_infinity x then Some infinity
  else
    let r := (x * x)%float in
    if PrimFloat.is_infinity r then None else Some r.

(** The C library behind [math.sin] and [math.cos]. *)
Record libm : Type := { sin : float -> float; cos : float -> float }.

(** What every C library gives at zero. *)
Definition exact_at_zero (m : libm) : Prop :=
  sin m 0%float = 0%float /\ cos m 0%float = 1%float.

(** [math.sin(x)], [math.cos(x)]: [None] is the [ValueError] of an
    infinite argument. *)
Definition math_sin (m : libm) (x : float) : option float :=
  if PrimFloat.is_infinity x then None else Some (sin m x).
Definition math_cos (m : libm) (x : float) : option float :=
  if PrimFloat.is_infinity x then None else Some (cos m x).

Definition tau : float := 0x1.921fb54442d18p+2%float.  (* 6.283185307179586 *)

Definition denominator_a (a b : Segment) : float :=
  let p1 := fst a in let p3 := fst b in let p4 := snd b in
  (((fst p4 - fst p3) * (snd p1 - snd p3)) -
   ((snd p4 - snd p3) * (fst p1 - fst p3)))%float.

Definition denominator_b (a b : Segment) : float :=
  let p1 := fst a in let p2 := snd a in let p3 := fst b in
  (((fst p2 - fst p1) * (snd p1 - snd p3)) -
   ((snd p2 - snd p1) * (fst p1 - fst p3)))%float.

Definition numerator (a b : Segment) : float :=
  let p1 := fst a in let p2 := snd a in let p3 := fst b in let p4 := snd b in
  ((snd p4 - snd p3) * (fst p2 - fst p1) -
   (fst p4 - fst p3) * (snd p2 - snd p1))%float.

Definition u_a (a b : Segment) : float :=
  (denominator_a a b / numerator a b)%float.
Definition u_b (a b : Segment) : float :=
  (denominator_b a b / numerator a b)%float.

(** [0 < u < 1] *)
Definition strictly_inside (u : float) : bool :=
  PrimFloat.ltb 0 u && PrimFloat.ltb u 1.


(** [collides(a, b)].  The divisions are reached only when
    [math.isclose(numerator, 0)] is false, and then the numerator is not
    zero. *)
Definition collides (a b : Segment) : bool :=
  if binary64.isclose (numerator a b) 0 &&
     binary64.isclose (denominator_a a b) 0 then
    (* coincident *)
    true
  else if binary64.isclose (numerator a b) 0 then
    (* parallel *)
    false
  else strictly_inside (u_a a b) && strictly_inside (u_b a b).

Inductive exn : Type := ValueError | OverflowError.

Module Player.

Record t : Type := mk {
  _pos : Point;
  _color : Z * Z * Z;
  _direction : float;    (* in degrees *)
  _speed : float;        (* pixel per second *)
  _traces : list Point;  (* list of (wendepunkt_x, y) *)
  _dead : bool
}.

Definition init (start_pos : Point) : t :=
  mk start_pos (255, 255, 0)%Z 0%float 60%float [start_pos] false.

Fixpoint pair_up (last : Point) (rest : list Point) : list Segment :=
  match rest with
  | [] => []
  | trace :: rest' => (last, trace) :: pair_up trace rest'
  end.

Definition get_traces (self : t) : iterable Segment :=
  match _traces self with
  | [] => None
  | first :: rest => Some (pair_up first (rest ++ [_pos self]))
  end.

Definition die (self : t) : t :=
  mk (_pos self) (_color self) (_direction self) (_speed self) (_traces self)
     true.

Definition is_dead (self : t) : bool := _dead self.

Fixpoint last_trace (traces : list Point) : option Point :=
  match traces with
  | [] => None
  | [x] => Some x
  | _ :: rest => last_trace rest
  end.

Definition my_latest_trace (self : t) : option Segment :=
  match last_trace (_traces self) with
  | None => None
  | Some l => Some (l, _pos self)
  end.

Definition check_trace (latest : Segment) (self : t) (trace : Segment) : t :=
  if Segment_eqb trace latest then self
  else if collides latest trace then die self
  else self.

Definition check_collision (self : t) (all_traces : iterable Segment)
  : option t :=
  if _dead self then Some self
  else
    match my_latest_trace self with
    | None => None
    | Some latest =>
        match all_traces with
        | None => None
        | Some traces => Some (fold_left (check_trace latest) traces self)
        end
    end.

Definition set_speed (self : t) (speed : float) : t :=
  if PrimFloat.ltb speed 0 then self
  else
    mk (_pos self) (_color self) (_direction self) speed (_traces self)
       (_dead self).

Definition set_direction (self : t) (direction : float) : t :=
  if PrimFloat.eqb (pymod (direction - _direction self) 360) 180 then self
  else if negb (PrimFloat.eqb direction (_direction self)) then
    mk (_pos self) (_color self) direction (_speed self)
       (_traces self ++ [_pos self]) (_dead self)
  else self.

(** How a call ends: it returns, or it raises with the player as it is
    at that moment. *)
Inductive outcome : Type :=
  | Returned (self : t)
  | Raised (e : exn) (self : t).

(** [move]: [math.sin] or [math.cos] may raise before the position is
    assigned, a square may raise after it. *)
Definition move (m : libm) (self : t) (delta_ms : float) : outcome :=
  if _dead self then Returned self
  else
    let dir_rad := ((_direction self * tau) / 360)%float in
    let speed_ms := (_speed self * delta_ms / 1000)%float in
    match math_sin m dir_rad, math_cos m dir_rad with
    | Some s, Some c =>
        let pos := ((fst (_pos self) + speed_ms * s)%float,
                    (snd (_pos self) - speed_ms * c)%float) in
        let moved :=
          mk pos (_color self) (_direction self) (_speed self)
             (_traces self) (_dead self) in
        match pow2 (fst pos), pow2 (snd pos) with
        | Some xx, Some yy =>
            if PrimFloat.ltb 14400 (xx + yy) then Returned (die moved)
            else Returned moved
        | _, _ => Raised OverflowError moved
        end
    | _, _ => Raised ValueError self
    end.

End Player.

(** The test of one iteration of the loop of [check_collision]. *)
Definition hits (latest trace : Segment) : bool :=
  negb (Segment_eqb trace latest) && collides latest trace.

Definition has_waypoint (kp : Z * Player.t) : Prop :=
  Player._traces (snd kp) <> [].

Module Board.

Record t : Type := mk {
  players : list (Z * Player.t);
  local_player : Z
}.

Definition init : t := mk [(0%Z, Player.init ((-50)%float, 0%float))] 0%Z.

Fixpoint update_player (ps : list (Z * Player.t)) (k : Z)
  (f : Player.t -> Player.t) : option (list (Z * Player.t)) :=
  match ps with
  | [] => None
  | (k', p) :: rest =>
      if Z.eqb k' k then Some ((k', f p) :: rest)
      else
        match update_player rest k f with
        | None => None
        | Some rest' => Some ((k', p) :: rest')
        end
  end.

Definition all_petals : bool := false.

(** [i * 360 / 10] for a petal index [i]. *)
Definition petal_direction (i : nat) : float :=
  (PrimFloat.of_uint63 (Uint63Axioms.of_Z (Z.of_nat (i * 360))) / 10)%float.

Definition process_input (self : t) (inc : InputController)
  : option (list (Z * Player.t)) :=
  let stepsize := if all_petals then 1%nat else 2%nat in
  match find (petal_pressed inc) (range 0 10 stepsize) with
  | Some i =>
      update_player (players self) (local_player self)
        (fun p => Player.set_direction p (petal_direction i))
  | None => Some (players self)
  end.

(** move players: the first move that raises ends the tick. *)
Fixpoint move_players (m : libm) (ps : list (Z * Player.t))
  (delta_ms : float) : option (list (Z * Player.t)) :=
  match ps with
  | [] => Some []
  | (k, p) :: rest =>
      match Player.move m p delta_ms with
      | Player.Raised _ _ => None
      | Player.Returned p' =>
          match move_players m rest delta_ms with
          | None => None
          | Some rest' => Some ((k, p') :: rest')
          end
      end
  end.

Definition all_traces (ps : list (Z * Player.t)) : iterable Segment :=
  chain (map (fun kp => Player.get_traces (snd kp)) ps).

Fixpoint check_collisions (checked todo : list (Z * Player.t))
  : option (list (Z * Player.t)) :=
  match todo with
  | [] => Some checked
  | (k, p) :: rest =>
      match Player.check_collision p (all_traces (checked ++ todo)) with
      | None => None
      | Some p' => check_collisions (checked ++ [(k, p')]) rest
      end
  end.

Definition after_moves (m : libm) (self : t) (inc : InputController)
  (delta_ms : float) : option (list (Z * Player.t)) :=
  match process_input self inc with
  | None => None
  | Some ps => move_players m ps delta_ms
  end.

(** [think]: [None] when an exception ends the tick. *)
Definition think (m : libm) (self : t) (inc : InputController)
  (delta_ms : float) : option t :=
  match after_moves m self inc delta_ms with
  | None => None
  | Some moved =>
      match check_collisions [] moved with
      | None => None
      | Some ps' => Some (mk ps' (local_player self))
      end
  end.

End Board.

End f64.

(** ** Concrete binary64 states

    Decimal values are the nearest floats, written exactly. *)




(** A C library of which only the values at zero are used: the players
    below head north (direction 0). *)
Definition north_only : f64.libm :=
  {| f64.sin := fun _ => 0%float; f64.cos := fun _ => 1%float |}.

(** A player at (1e-07, 0) heading north. *)
Definition grazer : f64.Player.t :=
  f64.Player.mk (0x1.ad7f29abcaf48p-24, 0)%float (255, 255, 0)%Z 0%float
    60%float [(0x1.ad7f29abcaf48p-24, 0)%float] false.


(** Two players heading north, 16 ms before their live segments are
    ((-50, 0), (50, 0)) and ((0, -50), (0, 50)). *)
Definition north_a : f64.Player.t :=
  f64.Player.mk (50, 0x1.eb851eb851eb8p-1)%float (255, 255, 0)%Z 0%float
    60%float [(-50, 0)%float] false.
Definition north_b : f64.Player.t :=
  f64.Player.mk (0, 0x1.97ae147ae147bp+5)%float (255, 255, 0)%Z 0%float
    60%float [(0, -50)%float] false.
Definition north_board : f64.Board.t :=
  f64.Board.mk [(0%Z, north_a); (1%Z, north_b)] 0%Z.

(** Two players heading north, 16 ms before their live segments are
    ((-41.4, -17.4), (9.7, 44.04)) and ((-4.5, 73.74), (23.9, 14.34)),
    which cross at the middle of the second, 1e-17 of its length before
    the end of the first. *)
Definition near_a : f64.Player.t :=
  f64.Player.mk (0x1.3666666666666p+3, 0x1.68p+5)%float (255, 255, 0)%Z
    0%float 60%float
    [(-0x1.4b33333333333p+5, -0x1.1666666666666p+4)%float] false.
Definition near_b : f64.Player.t :=
  f64.Player.mk (0x1.7e66666666666p+4, 0x1.e99999999999ap+3)%float
    (255, 255, 0)%Z 0%float 60%float
    [(-0x1.2p+2, 0x1.26f5c28f5c28fp+6)%float] false.
Definition near_board : f64.Board.t :=
  f64.Board.mk [(0%Z, near_a); (1%Z, near_b)] 0%Z.
Definition near_live_a : f64.Segment :=
  ((-0x1.4b33333333333p+5, -0x1.1666666666666p+4),
   (0x1.3666666666666p+3, 0x1.6051eb851eb85p+5))%float.
Definition near_live_b : f64.Segment :=
  ((-0x1.2p+2, 0x1.26f5c28f5c28fp+6),
   (0x1.7e66666666666p+4, 0x1.cae147ae147aep+3))%float.

(** The players of [north_board] and [near_board] 16 ms later. *)
Definition north_a_moved : f64.Player.t :=
  f64.Player.mk (50, 0)%float (255, 255, 0)%Z 0%float 60%float
    [(-50, 0)%float] false.
Definition north_b_moved : f64.Player.t :=
  f64.Player.mk (0, 50)%float (255, 255, 0)%Z 0%float 60%float
    [(0, -50)%float] false.
Definition near_a_moved : f64.Player.t :=
  f64.Player.mk (snd near_live_a) (255, 255, 0)%Z 0%float 60%float
    [fst near_live_a] false.
Definition near_b_moved : f64.Player.t :=
  f64.Player.mk (snd near_live_b) (255, 255, 0)%Z 0%float 60%float
    [fst near_live_b] false.

(** * Properties *)

(** ** Comparisons *)

Lemma Rltb_true_iff (x y : R) : Rltb x y = true <-> x < y.
Proof. unfold Rltb. destruct (Rlt_dec x y); split; intros; congruence || tauto. Qed.

Lemma Rltb_false_iff (x y : R) : Rltb x y = false <-> ~ x < y.
Proof. unfold Rltb. destruct (Rlt_dec x y); split; intros; congruence || tauto. Qed.

Lemma Rleb_true_iff (x y : R) : Rleb x y = true <-> x <= y.
Proof. unfold Rleb. destruct (Rle_dec x y); split; intros; congruence || tauto. Qed.

Lemma Reqb_true_iff (x y : R) : Reqb x y = true <-> x = y.
Proof. unfold Reqb. destruct (Req_dec_T x y); split; intros; congruence || tauto. Qed.

Lemma Reqb_false_iff (x y : R) : Reqb x y = false <-> x <> y.
Proof. unfold Reqb. destruct (Req_dec_T x y); split; intros; congruence || tauto. Qed.

Lemma Reqb_refl (x : R) : Reqb x x = true.
Proof. now apply Reqb_true_iff. Qed.

Lemma Point_eqb_true_iff (p q : Point) : Point_eqb p q = true <-> p = q.
Proof.
  destruct p as [px py], q as [qx qy]. unfold Point_eqb. simpl.
  rewrite andb_true_iff, !Reqb_true_iff.
  split; [intros [-> ->]; reflexivity | intros H; inversion H; auto].
Qed.

Lemma Segment_eqb_true_iff (s t : Segment) : Segment_eqb s t = true <-> s = t.
Proof.
  destruct s as [s1 s2], t as [t1 t2]. unfold Segment_eqb. simpl.
  rewrite andb_true_iff, !Point_eqb_true_iff.
  split; [intros [-> ->]; reflexivity | intros H; inversion H; auto].
Qed.

Lemma Segment_eqb_false_iff (s t : Segment) :
  Segment_eqb s t = false <-> s <> t.
Proof.
  rewrite <- Segment_eqb_true_iff. destruct (Segment_eqb s t); split;
    intros; congruence.
Qed.

(** ** The zero test of [collides] *)

Lemma rel_tol_small : 0 < math.rel_tol < 1.
Proof. unfold math.rel_tol. split; lra. Qed.

Lemma isclose_zero_iff (x : R) : math.isclose x 0 = true <-> x = 0.
Proof.
  unfold math.isclose, math.abs_tol. rewrite Rleb_true_iff.
  pose proof rel_tol_small as [Hpos Hlt].
  pose proof (Rabs_pos x) as Hx.
  replace (x - 0) with x by ring. rewrite Rabs_R0.
  rewrite (Rmax_left (Rabs x) 0) by lra.
  rewrite Rmax_left by nra.
  split.
  - intros H. destruct (Req_dec_T x 0) as [|Hne]; [assumption|].
    apply Rabs_pos_lt in Hne. nra.
  - intros ->. rewrite Rabs_R0. lra.
Qed.

Lemma isclose_zero_false_iff (x : R) : math.isclose x 0 = false <-> x <> 0.
Proof.
  rewrite <- isclose_zero_iff. destruct (math.isclose x 0); split;
    intros; congruence.
Qed.

(** The divisions of [collides] never divide by zero. *)
Lemma collides_division_defined (a b : Segment) :
  math.isclose (numerator a b) 0 = false -> numerator a b <> 0.
Proof. apply isclose_zero_false_iff. Qed.

Lemma collides_third_branch (a b : Segment) :
  math.isclose (numerator a b) 0 = false ->
  (collides a b = true <->
   (0 < u_a a b /\ u_a a b < 1) /\ (0 < u_b a b /\ u_b a b < 1)).
Proof.
  intros Hn. unfold collides. rewrite Hn. simpl.
  rewrite !andb_true_iff, !Rltb_true_iff. tauto.
Qed.

Lemma collides_coincident (a b : Segment) :
  math.isclose (numerator a b) 0 = true ->
  math.isclose (denominator_a a b) 0 = true -> collides a b = true.
Proof. intros Hn Hd. unfold collides. rewrite Hn, Hd. reflexivity. Qed.

Lemma collides_parallel (a b : Segment) :
  math.isclose (numerator a b) 0 = true ->
  math.isclose (denominator_a a b) 0 = false -> collides a b = false.
Proof. intros Hn Hd. unfold collides. rewrite Hn, Hd. reflexivity. Qed.

Lemma collides_endpoint (a b : Segment) :
  math.isclose (numerator a b) 0 = false ->
  u_a a b = 0 \/ u_a a b = 1 \/ u_b a b = 0 \/ u_b a b = 1 ->
  collides a b = false.
Proof.
  intros Hn Hu. apply not_true_is_false. intros Hc.
  apply collides_third_branch in Hc; [|assumption]. lra.
Qed.

(** A candidate of length zero collides with every segment. *)
Lemma collides_zero_length_candidate (a : Segment) (p : Point) :
  collides a (p, p) = true.
Proof.
  apply collides_coincident;
    apply isclose_zero_iff; unfold numerator, denominator_a; simpl; ring.
Qed.

(** ** Player *)

Section PlayerFacts.

Import Player.

Lemma pymod_zero (y : R) : pymod 0 y = 0.
Proof.
  unfold pymod. unfold Rdiv. rewrite Rmult_0_l.
  change 0 with (INR 0) at 2. rewrite Int_part_INR. simpl. ring.
Qed.

Lemma check_trace_hits (latest : Segment) (self : t) (trace : Segment) :
  check_trace latest self trace = if hits latest trace then die self else self.
Proof.
  unfold check_trace, hits.
  destruct (Segment_eqb trace latest), (collides latest trace); reflexivity.
Qed.

Lemma check_loop_frame (latest : Segment) (traces : list Segment) (self : t) :
  let self' := fold_left (check_trace latest) traces self in
  _pos self' = _pos self /\ _color self' = _color self /\
  _direction self' = _direction self /\ _speed self' = _speed self /\
  _traces self' = _traces self /\
  _dead self' = _dead self || existsb (hits latest) traces.
Proof.
  revert self. induction traces as [|trace traces IH]; intros self; simpl.
  - rewrite orb_false_r. tauto.
  - specialize (IH (check_trace latest self trace)). simpl in IH.
    destruct IH as (-> & -> & -> & -> & -> & ->).
    rewrite check_trace_hits.
    destruct (hits latest trace); simpl; rewrite ?orb_true_r; tauto.
Qed.

Lemma hits_true_iff (latest trace : Segment) :
  hits latest trace = true <-> trace <> latest /\ collides latest trace = true.
Proof.
  unfold hits. rewrite andb_true_iff, negb_true_iff, Segment_eqb_false_iff.
  tauto.
Qed.

Lemma last_trace_app (traces : list Point) (p : Point) :
  last_trace (traces ++ [p]) = Some p.
Proof.
  induction traces as [|q traces IH]; [reflexivity|].
  simpl. destruct (traces ++ [p]) eqn:E; [|exact IH].
  destruct traces; discriminate.
Qed.

Lemma last_trace_some (traces : list Point) :
  traces <> [] -> exists l, last_trace traces = Some l.
Proof.
  induction traces as [|q traces IH]; [congruence|]. intros _.
  destruct traces as [|q' traces]; [now exists q|].
  apply IH. discriminate.
Qed.

Lemma pair_up_app (first : Point) (rest : list Point) (l p : Point) :
  last_trace (first :: rest) = Some l ->
  pair_up first (rest ++ [p]) = pair_up first rest ++ [(l, p)].
Proof.
  revert first. induction rest as [|q rest IH]; intros first.
  - intros [= ->]. reflexivity.
  - change (last_trace (first :: q :: rest)) with (last_trace (q :: rest)).
    intros Hl. cbn [app pair_up]. rewrite (IH q Hl). reflexivity.
Qed.

(** [get_traces] yields the completed segments and then the live one. *)
Lemma get_traces_live (self : t) (latest : Segment) :
  my_latest_trace self = Some latest ->
  get_traces self = Some (completed_traces self ++ [latest]).
Proof.
  unfold my_latest_trace, get_traces, completed_traces.
  destruct (_traces self) as [|first rest]; [discriminate|].
  destruct (last_trace (first :: rest)) as [l|] eqn:Hl; [|discriminate].
  intros [= <-]. rewrite (pair_up_app _ _ _ _ Hl). reflexivity.
Qed.

End PlayerFacts.

Section PlayerContracts.

Import Player.

(** C4. [check_collision] on an alive player skips the candidates equal to
    its live segment [(traces[-1], pos)] and marks the player dead exactly
    when another candidate collides with the live segment; candidates
    that are all equal to the live segment leave the player alive. *)
Theorem check_collision_contract
  (self : t) (all_traces : list Segment) (latest : Segment) :
  _dead self = false ->
  my_latest_trace self = Some latest ->
  exists self',
    check_collision self (Some all_traces) = Some self' /\
    (_dead self' = true <->
     exists trace, In trace all_traces /\ trace <> latest /\
                   collides latest trace = true) /\
    ((forall trace, In trace all_traces -> trace = latest) ->
     _dead self' = false).
Proof.
  intros Halive Hlatest. unfold check_collision. rewrite Halive, Hlatest.
  eexists. split; [reflexivity|].
  destruct (check_loop_frame latest all_traces self)
    as (_ & _ & _ & _ & _ & Hdead).
  rewrite Hdead, Halive. simpl. split.
  - rewrite existsb_exists. split.
    + intros (trace & Hin & Hhit). apply hits_true_iff in Hhit.
      exists trace. tauto.
    + intros (trace & Hin & Hhit). exists trace.
      rewrite hits_true_iff. tauto.
  - intros Hsame. apply not_true_is_false. rewrite existsb_exists.
    intros (trace & Hin & Hhit). apply hits_true_iff in Hhit.
    destruct Hhit as [Hne _]. apply Hne, Hsame, Hin.
Qed.

(** C9. Invalid inputs change nothing and raise nothing: [set_speed(s)]
    with [s < 0] returns the player as it was, any [s >= 0] becomes the
    speed; [set_direction(d)] with [(d - current) % 360 == 180] returns
    the player as it was. *)
Theorem invalid_input_ignored (self : t) :
  (forall speed, speed < 0 -> set_speed self speed = self) /\
  (forall speed, 0 <= speed ->
     set_speed self speed =
     mk (_pos self) (_color self) (_direction self) speed (_traces self)
        (_dead self)) /\
  (forall direction, pymod (direction - _direction self) 360 = 180 ->
     set_direction self direction = self).
Proof.
  split; [|split].
  - intros speed H. unfold set_speed.
    apply Rltb_true_iff in H. rewrite H. reflexivity.
  - intros speed H. unfold set_speed.
    replace (Rltb speed 0) with false
      by (symmetry; apply Rltb_false_iff; lra).
    reflexivity.
  - intros direction H. unfold set_direction.
    apply Reqb_true_iff in H. rewrite H. reflexivity.
Qed.

Lemma move_frame (self : t) (delta_ms : R) :
  _color (move self delta_ms) = _color self /\
  _direction (move self delta_ms) = _direction self /\
  _speed (move self delta_ms) = _speed self /\
  _traces (move self delta_ms) = _traces self /\
  (_dead self = true -> _dead (move self delta_ms) = true).
Proof.
  unfold move. destruct (_dead self) eqn:E; [rewrite E; tauto|].
  match goal with |- context [if ?c then _ else _] => destruct c end;
    simpl; repeat split; congruence.
Qed.

Lemma check_collision_frame (self self' : t) (all_traces : iterable Segment) :
  check_collision self all_traces = Some self' ->
  _pos self' = _pos self /\ _color self' = _color self /\
  _direction self' = _direction self /\ _speed self' = _speed self /\
  _traces self' = _traces self /\
  (_dead self = true -> _dead self' = true).
Proof.
  unfold check_collision. destruct (_dead self) eqn:E.
  - intros [= <-]. tauto.
  - destruct (my_latest_trace self) as [latest|]; [|discriminate].
    destruct all_traces as [traces|]; [|discriminate].
    intros [= <-].
    destruct (check_loop_frame latest traces self)
      as (-> & -> & -> & -> & -> & _).
    repeat split; congruence.
Qed.

(** C10. [check_collision] can change only the dead flag, and only from
    alive to dead; [move] can change only the position and the dead flag;
    neither touches the waypoints, the direction or the speed;
    [set_speed] keeps the waypoints too, and [set_direction] either keeps
    them or appends the position. *)
Theorem frame_contract (self : t) :
  (forall all_traces self',
     check_collision self all_traces = Some self' ->
     _pos self' = _pos self /\ _color self' = _color self /\
     _direction self' = _direction self /\ _speed self' = _speed self /\
     _traces self' = _traces self /\
     (_dead self = true -> _dead self' = true)) /\
  (forall delta_ms,
     _color (move self delta_ms) = _color self /\
     _direction (move self delta_ms) = _direction self /\
     _speed (move self delta_ms) = _speed self /\
     _traces (move self delta_ms) = _traces self /\
     (_dead self = true -> _dead (move self delta_ms) = true)) /\
  (forall speed, _traces (set_speed self speed) = _traces self) /\
  (forall direction,
     _traces (set_direction self direction) = _traces self \/
     _traces (set_direction self direction) = _traces self ++ [_pos self]).
Proof.
  split; [|split; [|split]].
  - intros all_traces self'. apply check_collision_frame.
  - intros delta_ms. apply move_frame.
  - intros speed. unfold set_speed. destruct (Rltb speed 0); reflexivity.
  - intros direction. unfold set_direction.
    destruct (Reqb _ 180); [now left|].
    destruct (Reqb direction _); simpl; [now left|now right].
Qed.

End PlayerContracts.

Section PlayerExamples.

Import Player.

Lemma pymod_small (x y : R) : 0 <= x < y -> pymod x y = x.
Proof.
  intros [Hx Hy]. unfold pymod.
  replace (Int_part (x / y)) with 0%Z; [ring|].
  apply Int_part_spec.
  assert (Hy0 : 0 < y) by lra.
  pose proof (Rinv_0_lt_compat y Hy0) as Hi.
  assert (Hyi : y * / y = 1) by (apply Rinv_r; lra).
  unfold Rdiv. simpl. split; nra.
Qed.

End PlayerExamples.

Section PlayerWitnesses.

Import Player.

(** C4: [rider_a] checked against its own live segment and the live
    segment of [rider_b], which crosses it. *)
Lemma check_collision_contract_witness :
  _dead rider_a = false /\
  my_latest_trace rider_a = Some ((-50, 0), (50, 0)) /\
  exists self',
    check_collision rider_a
      (Some [((-50, 0), (50, 0)); ((0, -50), (0, 50))]) = Some self' /\
    _dead self' = true.
Proof.
  split; [reflexivity|]. split; [reflexivity|].
  destruct (check_collision_contract rider_a
              [((-50, 0), (50, 0)); ((0, -50), (0, 50))]
              ((-50, 0), (50, 0)) eq_refl eq_refl)
    as (self' & Hrun & Hdead & _).
  exists self'. split; [exact Hrun|].
  apply Hdead. exists ((0, -50), (0, 50)).
  split; [right; left; reflexivity|]. split.
  - intros E. inversion E. lra.
  - apply collides_third_branch.
    + apply isclose_zero_false_iff. unfold numerator. simpl. lra.
    + unfold u_a, u_b, numerator, denominator_a, denominator_b.
      simpl. lra.
Defined.

(** C9: a negative speed, a zero speed and a reversal at the spawn. *)
Lemma invalid_input_ignored_witness :
  set_speed (init spawn) (-1) = init spawn /\
  _speed (set_speed (init spawn) 0) = 0 /\
  set_direction (init spawn) 180 = init spawn.
Proof.
  destruct (invalid_input_ignored (init spawn)) as (Hneg & Hok & Hrev).
  split; [apply Hneg; lra|]. split.
  - rewrite Hok; [reflexivity|lra].
  - apply Hrev. simpl. rewrite pymod_small; lra.
Defined.

End PlayerWitnesses.

(** ** The waypoint list under a call *)

Section Trail.

Import Player.

Lemma apply_call_traces (self self' : t) (c : call) :
  apply_call self c = Some self' ->
  _traces self' = _traces self \/
  (exists d, c = SetDirection d /\ set_direction self d <> self /\
             _traces self' = _traces self ++ [_pos self]).
Proof.
  destruct c as [d|s|delta_ms|all_traces]; simpl.
  - intros [= <-]. unfold set_direction.
    destruct (Reqb (pymod (d - _direction self) 360) 180) eqn:Erev;
      [now left|].
    destruct (Reqb d (_direction self)) eqn:E; simpl; [now left|].
    right. exists d. split; [reflexivity|]. split; [|reflexivity].
    unfold set_direction. rewrite Erev, E. simpl.
    intros Heq. apply (f_equal _direction) in Heq. simpl in Heq.
    apply Reqb_false_iff in E. congruence.
  - intros [= <-]. left. unfold set_speed. destruct (Rltb s 0); reflexivity.
  - intros [= <-]. left. apply move_frame.
  - intros H. left. apply check_collision_frame in H. tauto.
Qed.

End Trail.

(** ** Board *)

Section BoardFacts.

Import Player.

Lemma get_traces_ext (p q : t) :
  _traces q = _traces p -> _pos q = _pos p -> get_traces q = get_traces p.
Proof. unfold get_traces. intros -> ->. reflexivity. Qed.

(** Replacing a player by one with the same traces leaves the chained
    traces of the dict as they were. *)
Lemma all_traces_replace (checked rest : list (Z * t)) (k : Z) (p p' : t) :
  get_traces p' = get_traces p ->
  Board.all_traces (checked ++ (k, p') :: rest) =
  Board.all_traces (checked ++ (k, p) :: rest).
Proof.
  intros E. unfold Board.all_traces.
  induction checked as [|kq checked IH]; simpl.
  - rewrite E. reflexivity.
  - rewrite IH. reflexivity.
Qed.

(** Every collision check of a tick sees the traces of the players as
    they are after the moves. *)
Lemma check_collisions_snapshot (todo checked result : list (Z * t)) :
  Board.check_collisions checked todo = Some result ->
  exists checked',
    result = checked ++ checked' /\
    Forall2 (fun kp kp' =>
               fst kp' = fst kp /\
               check_collision (snd kp) (Board.all_traces (checked ++ todo)) =
               Some (snd kp'))
            todo checked'.
Proof.
  revert checked. induction todo as [|[k p] rest IH]; intros checked; simpl.
  - intros [= <-]. exists []. rewrite app_nil_r. split; constructor.
  - destruct (check_collision p (Board.all_traces (checked ++ (k, p) :: rest)))
      as [p'|] eqn:Hp; [|discriminate].
    intros Hrest. apply IH in Hrest. destruct Hrest as (checked' & -> & Hall).
    assert (Hsame : get_traces p' = get_traces p).
    { apply check_collision_frame in Hp. apply get_traces_ext; tauto. }
    rewrite <- app_assoc in Hall. cbn [app] in Hall.
    rewrite (all_traces_replace _ _ _ _ _ Hsame) in Hall.
    exists ((k, p') :: checked'). split.
    + rewrite <- app_assoc. reflexivity.
    + constructor; [split; [reflexivity|exact Hp]|exact Hall].
Qed.

Lemma Forall2_nth_error_left {A B : Type} (P : A -> B -> Prop)
  (l : list A) (l' : list B) (i : nat) (x : A) :
  Forall2 P l l' -> nth_error l i = Some x ->
  exists y, nth_error l' i = Some y /\ P x y.
Proof.
  intros H. revert i. induction H as [|a b l l' Hab _ IH]; intros i.
  - destruct i; discriminate.
  - destruct i as [|i]; simpl.
    + intros [= <-]. now exists b.
    + apply IH.
Qed.

(** The chained traces contain the traces of each player. *)
Lemma all_traces_incl (ps : list (Z * t)) (all : list Segment)
  (i : nat) (k : Z) (p : t) (traces : list Segment) :
  Board.all_traces ps = Some all -> nth_error ps i = Some (k, p) ->
  get_traces p = Some traces -> incl traces all.
Proof.
  unfold Board.all_traces. revert all i.
  induction ps as [|[k' q] ps IH]; intros all i; [destruct i; discriminate|].
  simpl. destruct (get_traces q) as [tq|] eqn:Hq; [|discriminate].
  destruct (chain (map (fun kp => get_traces (snd kp)) ps)) as [tail|] eqn:Ht;
    [|discriminate].
  intros [= <-]. destruct i as [|i]; simpl.
  - intros [= -> ->] Hp. rewrite Hq in Hp. injection Hp as ->.
    apply incl_appl, incl_refl.
  - intros Hn Hp. apply incl_appr. eapply IH; eauto.
Qed.

Lemma all_traces_total (ps : list (Z * t)) :
  Forall has_waypoint ps ->
  exists all, Board.all_traces ps = Some all.
Proof.
  unfold Board.all_traces. induction 1 as [|[k p] ps Hp _ [all IH]]; simpl.
  - now exists [].
  - rewrite IH. unfold get_traces. unfold has_waypoint in Hp. simpl in Hp.
    destruct (_traces p); [congruence|]. eexists. reflexivity.
Qed.

Lemma check_collision_total (p : t) (all : list Segment) :
  _traces p <> [] -> exists p', check_collision p (Some all) = Some p'.
Proof.
  intros Hp. unfold check_collision, my_latest_trace.
  destruct (_dead p); [eexists; reflexivity|].
  destruct (last_trace_some _ Hp) as [l ->]. eexists. reflexivity.
Qed.

Lemma check_collisions_total (todo checked : list (Z * t)) :
  Forall has_waypoint (checked ++ todo) ->
  exists result, Board.check_collisions checked todo = Some result.
Proof.
  revert checked. induction todo as [|[k p] rest IH]; intros checked Hwf;
    simpl.
  - eexists. reflexivity.
  - destruct (all_traces_total _ Hwf) as [all ->].
    assert (Hp : _traces p <> []).
    { apply Forall_app in Hwf. destruct Hwf as [_ Hwf].
      inversion Hwf; assumption. }
    destruct (check_collision_total p all Hp) as [p' Hp']. rewrite Hp'.
    apply IH. rewrite <- app_assoc. cbn [app].
    apply Forall_app in Hwf. destruct Hwf as [Hc Ht].
    apply Forall_app. split; [exact Hc|].
    inversion Ht; subst. constructor; [|assumption].
    apply check_collision_frame in Hp'. unfold has_waypoint. simpl.
    destruct Hp' as (_ & _ & _ & _ & -> & _). exact Hp.
Qed.

End BoardFacts.

Section BoardTick.

Import Player.

Lemma set_direction_has_waypoint (p : t) (d : R) :
  _traces p <> [] -> _traces (set_direction p d) <> [].
Proof.
  intros Hp. unfold set_direction.
  destruct (Reqb _ 180); [exact Hp|].
  destruct (negb _); [|exact Hp]. simpl.
  intros E. apply app_eq_nil in E. destruct E; discriminate.
Qed.

Lemma update_player_total (ps : list (Z * t)) (k : Z) (f : t -> t) :
  In k (map fst ps) ->
  (forall p, _traces p <> [] -> _traces (f p) <> []) ->
  Forall has_waypoint ps ->
  exists ps', Board.update_player ps k f = Some ps' /\
              Forall has_waypoint ps' /\ map fst ps' = map fst ps.
Proof.
  intros Hin Hf. induction ps as [|[k' p] ps IH]; [destruct Hin|].
  intros Hwf. inversion Hwf as [|? ? Hp Hps]; subst. simpl.
  destruct (Z.eqb k' k) eqn:E.
  - eexists. split; [reflexivity|]. split; [|reflexivity].
    constructor; [apply Hf; exact Hp|exact Hps].
  - destruct IH as (ps' & -> & Hwf' & Hkeys); [|exact Hps|].
    + destruct Hin as [Hk|Hin]; [|exact Hin].
      simpl in Hk. subst. rewrite Z.eqb_refl in E. discriminate.
    + eexists. split; [reflexivity|]. split.
      * constructor; assumption.
      * simpl. rewrite Hkeys. reflexivity.
Qed.

Lemma process_input_total (self : Board.t) (inc : InputController) :
  Board.well_formed self ->
  exists ps, Board.process_input self inc = Some ps /\
             Forall has_waypoint ps /\
             map fst ps = map fst (Board.players self).
Proof.
  intros [Hwf Hlocal]. unfold Board.process_input.
  destruct (find _ _) as [i|].
  - apply update_player_total; try assumption.
    intros p. apply set_direction_has_waypoint.
  - eexists. split; [reflexivity|]. split; [exact Hwf|reflexivity].
Qed.

Lemma move_players_wf (ps : list (Z * t)) (delta_ms : R) :
  Forall has_waypoint ps ->
  Forall has_waypoint (Board.move_players ps delta_ms) /\
  map fst (Board.move_players ps delta_ms) = map fst ps.
Proof.
  unfold Board.move_players. induction 1 as [|[k p] ps Hp _ [IH1 IH2]]; simpl.
  - split; [constructor|reflexivity].
  - split; [|rewrite IH2; reflexivity].
    constructor; [|exact IH1]. unfold has_waypoint in *. simpl.
    destruct (move_frame p delta_ms) as (_ & _ & _ & -> & _). exact Hp.
Qed.

Lemma after_moves_total (self : Board.t) (inc : InputController)
  (delta_ms : R) :
  Board.well_formed self ->
  exists moved, Board.after_moves self inc delta_ms = Some moved /\
                Forall has_waypoint moved /\
                map fst moved = map fst (Board.players self).
Proof.
  intros Hwf. unfold Board.after_moves.
  destruct (process_input_total self inc Hwf) as (ps & -> & Hps & Hkeys).
  destruct (move_players_wf ps delta_ms Hps) as [Hm Hk].
  eexists. split; [reflexivity|]. split; [exact Hm|congruence].
Qed.

Lemma checked_players_wf (moved result : list (Z * t)) (all : iterable Segment) :
  Forall2 (fun kp kp' =>
             fst kp' = fst kp /\
             check_collision (snd kp) all = Some (snd kp'))
          moved result ->
  Forall has_waypoint moved ->
  Forall has_waypoint result /\ map fst result = map fst moved.
Proof.
  induction 1 as [|kp kp' moved result [Hk Hc] _ IH]; intros Hwf.
  - split; [constructor|reflexivity].
  - inversion Hwf as [|? ? Hp Hps]; subst.
    destruct (IH Hps) as [IH1 IH2]. split.
    + constructor; [|exact IH1]. unfold has_waypoint in *.
      apply check_collision_frame in Hc.
      destruct Hc as (_ & _ & _ & _ & -> & _). exact Hp.
    + simpl. rewrite Hk, IH2. reflexivity.
Qed.

(** [think] raises nothing on a well-formed board and keeps it
    well-formed. *)
Lemma think_total (self : Board.t) (inc : InputController) (delta_ms : R) :
  Board.well_formed self ->
  exists self', Board.think self inc delta_ms = Some self' /\
                Board.well_formed self'.
Proof.
  intros Hwf. unfold Board.think.
  destruct (after_moves_total self inc delta_ms Hwf)
    as (moved & -> & Hm & Hkeys).
  destruct (check_collisions_total moved [] Hm) as [result Hres].
  rewrite Hres. eexists. split; [reflexivity|].
  apply check_collisions_snapshot in Hres.
  destruct Hres as (checked' & -> & Hall). simpl in Hall |- *.
  destruct (checked_players_wf _ _ _ Hall Hm) as [Hw Hk].
  split; simpl; [exact Hw|].
  rewrite Hk, Hkeys. apply Hwf.
Qed.

Lemma init_well_formed : Board.well_formed Board.init.
Proof.
  split; simpl.
  - constructor; [discriminate|constructor].
  - left. reflexivity.
Qed.

(** A live segment that collides with another trace of the tick kills
    its player. *)
Lemma check_collision_hit (p p' : t) (all : list Segment)
  (latest trace : Segment) :
  check_collision p (Some all) = Some p' ->
  my_latest_trace p = Some latest ->
  In trace all -> trace <> latest -> collides latest trace = true ->
  _dead p' = true.
Proof.
  intros Hc Hl Hin Hne Hcol.
  destruct (_dead p) eqn:Hdead.
  - apply check_collision_frame in Hc. apply Hc. exact Hdead.
  - unfold check_collision in Hc. rewrite Hdead, Hl in Hc.
    injection Hc as <-.
    destruct (check_loop_frame latest all p) as (_ & _ & _ & _ & _ & ->).
    rewrite Hdead. simpl. apply existsb_exists. exists trace.
    split; [exact Hin|]. apply hits_true_iff. tauto.
Qed.

End BoardTick.

(** ** TronGame *)

Section Game.

Import TronGame.

(** One [think] of the game on a well-formed board. *)
Lemma think_step (self : t) (inc : InputController) (delta_ms : R) (now : Z) :
  Board.well_formed (_board self) ->
  exists self',
    think self inc delta_ms now = Some self' /\
    Board.well_formed (_board self') /\
    _start_time self' = _start_time self /\
    (_done self = true ->
     _done self' = true /\ _duration self' = _duration self) /\
    (_done self = false ->
     _done self' = Board.game_over (_board self') /\
     (_done self' = true ->
      _duration self' = IZR (now - _start_time self) / 10 ^ 9) /\
     (_done self' = false -> _duration self' = _duration self)).
Proof.
  intros Hwf. unfold think.
  destruct (think_total (_board self) inc delta_ms Hwf)
    as (board & -> & Hwf').
  destruct (Board.game_over board) eqn:Hover; destruct (_done self) eqn:Hdone;
    simpl; eexists; (split; [reflexivity|]); simpl; rewrite ?Hover;
    (split; [exact Hwf'|]);
    repeat split; auto; intros; try congruence; try discriminate.
Qed.

Lemma run_latched (frames : list frame) (self : t) :
  Board.well_formed (_board self) -> _done self = true ->
  exists self',
    run self frames = Some self' /\
    _done self' = true /\ _duration self' = _duration self.
Proof.
  revert self. induction frames as [|[[inc delta_ms] now] frames IH];
    intros self Hwf Hdone; simpl.
  - exists self. auto.
  - destruct (think_step self inc delta_ms now Hwf)
      as (next & -> & Hwf' & _ & Hkeep & _).
    destruct (Hkeep Hdone) as [Hdone' Hdur].
    destruct (IH next Hwf' Hdone') as (self' & Hrun & Hd & Hdu).
    exists self'. split; [exact Hrun|]. split; [exact Hd|]. congruence.
Qed.

(** C6. Once the game is done, every further [think] leaves it done and
    leaves the duration as it is; the duration is assigned at the [think]
    that finds the game over while it is not yet done, and by no other. *)
Theorem duration_latched (self : t) :
  Board.well_formed (_board self) ->
  (_done self = true ->
   forall frames, exists self',
     run self frames = Some self' /\
     _done self' = true /\ _duration self' = _duration self) /\
  (_done self = false ->
   forall inc delta_ms now, exists self',
     think self inc delta_ms now = Some self' /\
     _done self' = Board.game_over (_board self') /\
     (_done self' = true ->
      _duration self' = IZR (now - _start_time self) / 10 ^ 9) /\
     (_done self' = false -> _duration self' = _duration self)).
Proof.
  intros Hwf. split.
  - intros Hdone frames. apply run_latched; assumption.
  - intros Hdone inc delta_ms now.
    destruct (think_step self inc delta_ms now Hwf)
      as (self' & Hthink & _ & _ & _ & Hfirst).
    exists self'. split; [exact Hthink|]. apply Hfirst. exact Hdone.
Qed.

(** C6 on a game that ended after three seconds: two more frames leave
    the duration at 3. *)
Lemma duration_latched_witness :
  Board.well_formed (_board finished_game) /\
  _done finished_game = true /\
  exists self',
    run finished_game [(no_input, 16, 5%Z); (no_input, 16, 6%Z)] =
    Some self' /\
    _done self' = true /\ _duration self' = 3.
Proof.
  assert (Hwf : Board.well_formed (_board finished_game)).
  { split; simpl.
    - repeat constructor; discriminate.
    - left. reflexivity. }
  split; [exact Hwf|]. split; [reflexivity|].
  exact (proj1 (duration_latched finished_game Hwf) eq_refl
           [(no_input, 16, 5%Z); (no_input, 16, 6%Z)]).
Defined.

(** On a well-formed board no frame raises a [KeyError] or an
    [IndexError]. *)
Lemma run_total (frames : list frame) (self : t) :
  Board.well_formed (_board self) ->
  exists self', run self frames = Some self' /\
                Board.well_formed (_board self').
Proof.
  revert self. induction frames as [|[[inc delta_ms] now] frames IH];
    intros self Hwf; simpl.
  - exists self. auto.
  - destruct (think_step self inc delta_ms now Hwf) as (next & -> & Hwf' & _).
    apply IH. exact Hwf'.
Qed.

End Game.

(** ** The tolerance of the zero test *)

(** C8. The zero test of [collides] is [math.isclose(x, 0)] with the
    default tolerances: the relative tolerance is scaled by [|x|] and the
    absolute tolerance is 0, so the test holds for zero only and no nonzero
    value passes it.  A candidate that starts on a segment and leaves it
    at a slope of 5e-13 is therefore not coincident with it. *)
Theorem zero_test_exact :
  (forall x, math.isclose x 0 = true <-> x = 0) /\
  math.isclose (1 / 10 ^ 12) 0 = false /\
  collides ((0, 0), (2, 0)) ((1, 0), (3, 1 / 10 ^ 12)) = false.
Proof.
  split; [exact isclose_zero_iff|]. split.
  - apply isclose_zero_false_iff. lra.
  - apply collides_endpoint.
    + apply isclose_zero_false_iff. unfold numerator. simpl. lra.
    + right; right; left. unfold u_b, denominator_b, numerator. simpl. lra.
Qed.

(** The same on binary64 values: the smallest positive float and 1e-12
    are not close to zero, negative zero is. *)
Example binary64_smallest_not_close :
  binary64.isclose binary64.smallest 0%float = false.
Proof. vm_compute. reflexivity. Qed.

Example binary64_tiny_not_close :
  binary64.isclose binary64.tiny 0%float = false.
Proof. vm_compute. reflexivity. Qed.

Example binary64_negative_zero_close :
  binary64.isclose (-0)%float 0%float = true.
Proof. vm_compute. reflexivity. Qed.

(** ** A turn in the first frame *)

Section FirstFrame.

Import Player.

(** A player that moved away from its last waypoint, that waypoint being
    stored twice, does not survive the collision check: the zero-length
    segment between the two copies counts as coincident with the live
    segment. *)
Lemma doubled_waypoint_fatal (p p' : t) (k : Z) (q : Point)
  (before : list Point) :
  _traces p = before ++ [q; q] -> _pos p <> q ->
  check_collision p (Board.all_traces [(k, p)]) = Some p' ->
  _dead p' = true.
Proof.
  intros Htr Hpos Hc.
  assert (Hlast : last_trace (_traces p) = Some q).
  { rewrite Htr. change [q; q] with ([q] ++ [q]). rewrite app_assoc.
    apply last_trace_app. }
  assert (Hlive : my_latest_trace p = Some (q, _pos p))
    by (unfold my_latest_trace; rewrite Hlast; reflexivity).
  assert (Hall : Board.all_traces [(k, p)] =
                 Some ((completed_traces p ++ [(q, _pos p)]) ++ [])).
  { unfold Board.all_traces. simpl.
    rewrite (get_traces_live p _ Hlive). reflexivity. }
  rewrite Hall in Hc.
  apply (check_collision_hit p p' _ (q, _pos p) (q, q) Hc Hlive).
  - apply in_or_app. left. apply in_or_app. left.
    unfold completed_traces. rewrite Htr.
    destruct before as [|first rest]; simpl; [left; reflexivity|].
    clear. revert first. induction rest as [|r rest IH]; intros first; simpl.
    + right. left. reflexivity.
    + right. apply IH.
  - intros E. apply Hpos. injection E as E. symmetry. exact E.
  - apply collides_zero_length_candidate.
Qed.

(** On a fresh board, a turn to 72 degrees in the first frame kills the
    local player in that frame, whatever the positive frame time. *)
Lemma first_frame_turn_fatal (delta_ms : R) :
  0 < delta_ms ->
  exists board,
    Board.think Board.init petal_2 delta_ms = Some board /\
    Board.game_over board = true.
Proof.
  intros Hdt.
  destruct (think_total Board.init petal_2 delta_ms init_well_formed)
    as (board & Hthink & _).
  exists board. split; [exact Hthink|].
  unfold Board.think, Board.after_moves in Hthink.
  change (Board.process_input Board.init petal_2)
    with (Some [(0%Z, set_direction (init (-50, 0)) (INR 2 * 360 / 10))])
    in Hthink.
  assert (Hturn : set_direction (init (-50, 0)) (INR 2 * 360 / 10) =
                  mk (-50, 0) (255, 255, 0)%Z (INR 2 * 360 / 10) 60
                     [(-50, 0); (-50, 0)] false).
  { unfold set_direction, init.
    cbn [_dead _pos _direction _speed _traces _color app INR].
    replace ((1 + 1) * 360 / 10 - 0) with 72 by field.
    rewrite pymod_small by lra.
    replace (Reqb 72 180) with false
      by (symmetry; apply Reqb_false_iff; lra).
    replace (Reqb ((1 + 1) * 360 / 10) 0) with false
      by (symmetry; apply Reqb_false_iff; lra).
    reflexivity. }
  rewrite Hturn in Hthink. clear Hturn.
  unfold Board.move_players in Hthink. cbn [map fst snd] in Hthink.
  set (turned := mk (-50, 0) (255, 255, 0)%Z (INR 2 * 360 / 10) 60
                    [(-50, 0); (-50, 0)] false) in Hthink.
  cbn [Board.check_collisions app] in Hthink.
  destruct (check_collision (move turned delta_ms)
              (Board.all_traces [(0%Z, move turned delta_ms)]))
    as [p'|] eqn:Hc; [|discriminate].
  injection Hthink as <-.
  unfold Board.game_over, is_dead. simpl. rewrite andb_true_r.
  apply (doubled_waypoint_fatal _ _ _ (-50, 0) [] ) in Hc; [exact Hc| |].
  - destruct (move_frame turned delta_ms) as (_ & _ & _ & -> & _).
    reflexivity.
  - unfold move, turned.
    cbn [_dead _pos _direction _speed _traces _color fst snd].
    set (theta := INR 2 * 360 / 10 * math.tau / 360).
    pose proof (sin2_cos2 theta) as Hunit. unfold Rsqr in Hunit.
    assert (Hv : 0 < 60 * delta_ms / 1000) by lra.
    set (v := 60 * delta_ms / 1000) in *.
    assert (Hmoved : (-50 + v * sin theta, 0 - v * cos theta) <> (-50, 0)).
    { intros E. injection E as Ex Ey.
      assert (Hs : v * sin theta = 0) by lra.
      assert (Hco : v * cos theta = 0) by lra.
      apply Rmult_integral in Hs, Hco.
      destruct Hs as [Hs|Hs]; [lra|]. destruct Hco as [Hco|Hco]; [lra|].
      rewrite Hs, Hco in Hunit. lra. }
    match goal with |- context [if ?c then _ else _] => destruct c end;
      simpl; exact Hmoved.
Qed.

End FirstFrame.

(** * Further properties of the code *)

(** ** collides *)

Lemma bool_eq_iff (b c : bool) : (b = true <-> c = true) -> b = c.
Proof.
  destruct b, c; intros [H1 H2]; try reflexivity.
  - symmetry. apply H1. reflexivity.
  - apply H2. reflexivity.
Qed.

(** X1. Every segment collides with itself: without the equality test
    of [check_collision] a live segment would kill its own player. *)
Theorem collides_self (a : Segment) : collides a a = true.
Proof.
  apply collides_coincident; apply isclose_zero_iff;
    destruct a as [[x1 y1] [x2 y2]]; unfold numerator, denominator_a;
    simpl; ring.
Qed.

(** ** Player: moving and turning *)

Section PlayerMore.

Import Player.

Lemma move_alive_before (self : t) (delta_ms : R) :
  _dead (move self delta_ms) = false -> _dead self = false.
Proof.
  destruct (_dead self) eqn:E; [|reflexivity].
  intros H. destruct (move_frame self delta_ms) as (_ & _ & _ & _ & Hd).
  rewrite (Hd E) in H. discriminate.
Qed.

(** X9. Repeating a [set_direction] changes nothing more: a petal held
    over many frames adds one waypoint. *)
Theorem set_direction_idempotent (self : t) (direction : R) :
  set_direction (set_direction self direction) direction =
  set_direction self direction.
Proof.
  unfold set_direction at 2 3.
  destruct (Reqb (pymod (direction - _direction self) 360) 180) eqn:Erev.
  - unfold set_direction. rewrite Erev. reflexivity.
  - destruct (Reqb direction (_direction self)) eqn:Esame; simpl.
    + unfold set_direction. rewrite Erev, Esame. reflexivity.
    + unfold set_direction. simpl.
      replace (direction - direction) with 0 by ring. rewrite pymod_zero.
      replace (Reqb 0 180) with false
        by (symmetry; apply Reqb_false_iff; lra).
      rewrite Reqb_refl. reflexivity.
Qed.

End PlayerMore.

(** ** Player: what a sequence of calls keeps *)

Section PlayerInvariants.

Import Player.

Lemma apply_call_frame (self self' : t) (c : call) :
  apply_call self c = Some self' ->
  _dead self = true -> _dead self' = true /\ _pos self' = _pos self.
Proof.
  destruct c as [d|s|delta_ms|all_traces]; simpl.
  - intros [= <-]. unfold set_direction.
    destruct (Reqb _ 180); [tauto|]. destruct (negb _); simpl; tauto.
  - intros [= <-]. unfold set_speed. destruct (Rltb s 0); simpl; tauto.
  - intros [= <-] Hd. unfold move. rewrite Hd. tauto.
  - intros H. apply check_collision_frame in H.
    destruct H as (Hp & _ & _ & _ & _ & Hd). rewrite Hp. tauto.
Qed.

(** X11. Waypoints are never removed or rewritten: after any calls the
    old waypoint list is a prefix of the new one, so [traces[0]] stays the
    spawn point. *)
Theorem traces_only_grow (calls : list call) (self self' : t) :
  apply_calls self calls = Some self' ->
  exists added, _traces self' = _traces self ++ added.
Proof.
  revert self. induction calls as [|c calls IH]; intros self; simpl.
  - intros [= <-]. exists []. rewrite app_nil_r. reflexivity.
  - destruct (apply_call self c) as [next|] eqn:Hc; [|discriminate].
    intros Hrest. destruct (IH next Hrest) as [added ->].
    destruct (apply_call_traces _ _ _ Hc) as [->|(d & _ & _ & ->)].
    + exists added. reflexivity.
    + exists ([_pos self] ++ added). rewrite app_assoc. reflexivity.
Qed.

Lemma traces_only_grow_witness :
  apply_calls (init spawn) [Move 1000; SetDirection 90] =
  Some (set_direction (move (init spawn) 1000) 90) /\
  exists added,
    _traces (set_direction (move (init spawn) 1000) 90) =
    _traces (init spawn) ++ added.
Proof.
  split; [reflexivity|].
  exact (traces_only_grow [Move 1000; SetDirection 90] (init spawn) _
           eq_refl).
Defined.

(** X13. Death is final and freezes the position: no sequence of calls
    revives a dead player or moves it. *)
Theorem dead_stays_put (calls : list call) (self self' : t) :
  _dead self = true ->
  apply_calls self calls = Some self' ->
  _dead self' = true /\ _pos self' = _pos self.
Proof.
  revert self. induction calls as [|c calls IH]; intros self Hdead; simpl.
  - intros [= <-]. auto.
  - destruct (apply_call self c) as [next|] eqn:Hc; [|discriminate].
    intros Hrest.
    destruct (apply_call_frame _ _ _ Hc Hdead) as [Hnext Hpos].
    destruct (IH next Hnext Hrest) as [H1 H2]. split; congruence.
Qed.

Lemma dead_stays_put_witness :
  _dead fallen = true /\
  _dead (move (set_direction fallen 90) 1000) = true /\
  _pos (move (set_direction fallen 90) 1000) = _pos fallen.
Proof.
  split; [reflexivity|].
  exact (dead_stays_put [SetDirection 90; Move 1000] fallen _
           eq_refl eq_refl).
Defined.

Lemma check_loop_dead (latest : Segment) (traces : list Segment) (self : t) :
  fold_left (check_trace latest) traces (die self) = die self.
Proof.
  induction traces as [|trace traces IH]; simpl; [reflexivity|].
  rewrite check_trace_hits.
  destruct (hits latest trace); exact IH.
Qed.

Lemma check_loop_result (latest : Segment) (traces : list Segment)
  (self : t) :
  fold_left (check_trace latest) traces self =
  if existsb (hits latest) traces then die self else self.
Proof.
  induction traces as [|trace traces IH]; simpl; [reflexivity|].
  rewrite check_trace_hits. destruct (hits latest trace); simpl.
  - apply check_loop_dead.
  - exact IH.
Qed.

(** X14. The result of [check_collision] depends only on which segments
    are among the candidates, not on their order or their number of
    copies. *)
Theorem check_collision_set (self : t) (all all' : list Segment) :
  (forall trace, In trace all <-> In trace all') ->
  check_collision self (Some all) = check_collision self (Some all').
Proof.
  intros Hsame. unfold check_collision.
  destruct (_dead self); [reflexivity|].
  destruct (my_latest_trace self) as [latest|]; [|reflexivity].
  rewrite !check_loop_result.
  replace (existsb (hits latest) all') with (existsb (hits latest) all);
    [reflexivity|].
  apply bool_eq_iff. rewrite !existsb_exists.
  split; intros (trace & Hin & Hhit); exists trace;
    (split; [apply Hsame; exact Hin|exact Hhit]).
Qed.

Lemma check_collision_set_witness :
  check_collision rider_a
    (Some [((0, -50), (0, 50)); ((-50, 0), (50, 0))]) =
  check_collision rider_a
    (Some [((-50, 0), (50, 0)); ((0, -50), (0, 50)); ((0, -50), (0, 50))]).
Proof.
  apply check_collision_set. intros trace. simpl. tauto.
Defined.

Lemma pair_up_ends (first : Point) (rest : list Point) :
  map fst (pair_up first rest) = removelast (first :: rest) /\
  map snd (pair_up first rest) = rest.
Proof.
  revert first. induction rest as [|q rest IH]; intros first.
  - split; reflexivity.
  - destruct (IH q) as [IH1 IH2]. cbn [pair_up map fst snd].
    rewrite IH1, IH2. split; reflexivity.
Qed.

Lemma get_traces_ends (self : t) (traces : list Segment) :
  get_traces self = Some traces ->
  map fst traces = _traces self /\
  map snd traces = tl (_traces self) ++ [_pos self].
Proof.
  unfold get_traces. destruct (_traces self) as [|first rest]; [discriminate|].
  intros [= <-]. destruct (pair_up_ends first (rest ++ [_pos self])) as [H1 H2].
  rewrite H1, H2. split; [|reflexivity].
  change (first :: rest ++ [_pos self])
    with ((first :: rest) ++ [_pos self]).
  apply removelast_last.
Qed.

(** X15. [get_traces] yields one segment per waypoint: the segments
    start at the waypoints, in order, and each ends where the next one
    starts, the last one at the position. *)
Theorem get_traces_chained (self : t) (traces : list Segment) :
  get_traces self = Some traces ->
  map fst traces = _traces self /\
  map snd traces = tl (_traces self) ++ [_pos self].
Proof. apply get_traces_ends. Qed.

Lemma get_traces_chained_witness :
  get_traces rider_a = Some [((-50, 0), (50, 0))] /\
  map fst [((-50, 0), (50, 0))] = _traces rider_a /\
  map snd [((-50, 0), (50, 0))] = tl (_traces rider_a) ++ [_pos rider_a].
Proof.
  split; [reflexivity|]. exact (get_traces_chained rider_a _ eq_refl).
Defined.

(** X16. [draw] raises exactly when [get_traces] does, and otherwise
    sets the colour of the player and draws the segments of [get_traces]
    as one polyline: it moves to the start of the first and draws a line
    to the end of each, then strokes, switches to red if the player is
    dead and fills the marker centred on the position. *)
Theorem draw_polyline (self : t) :
  (Player_draw self = None <-> get_traces self = None) /\
  forall traces, get_traces self = Some traces ->
    exists first,
      hd_error (map fst traces) = Some first /\
      Player_draw self =
      Some ([rgb (IZR (fst (fst (_color self))))
                 (IZR (snd (fst (_color self))))
                 (IZR (snd (_color self)));
             move_to (fst first) (snd first)] ++
            map (fun s => line_to (fst (snd s)) (snd (snd s))) traces ++
            [stroke] ++
            (if _dead self then [rgb 255 0 0] else []) ++
            [rectangle (fst (_pos self) - 10 / 2) (snd (_pos self) - 10 / 2)
                       10 10;
             fill]).
Proof.
  split.
  - unfold Player_draw, get_traces.
    destruct (_traces self); split; intros; congruence.
  - intros traces Htr.
    destruct (get_traces_ends self traces Htr) as [Hfst Hsnd].
    unfold Player_draw. unfold get_traces in Htr.
    destruct (_traces self) as [|first rest]; [discriminate|].
    exists first. split; [rewrite Hfst; reflexivity|].
    simpl in Hsnd. rewrite <- Hsnd, map_map. reflexivity.
Qed.

End PlayerInvariants.

(** ** Board: input, structure and errors *)

Section BoardMore.

Import Player.

Lemma upper_petals : range 0 10 2 = [0; 2; 4; 6; 8]%nat.
Proof. reflexivity. Qed.

Lemma process_input_unfold (self : Board.t) (inc : InputController) :
  Board.process_input self inc =
  match find (petal_pressed inc) [0; 2; 4; 6; 8]%nat with
  | Some i =>
      Board.update_player (Board.players self) (Board.local_player self)
        (fun p => set_direction p (INR i * 360 / 10))
  | None => Some (Board.players self)
  end.
Proof. reflexivity. Qed.

Lemma find_ext_in {A : Type} (f g : A -> bool) (l : list A) :
  (forall x, In x l -> f x = g x) -> find f l = find g l.
Proof.
  induction l as [|x l IH]; intros H; simpl; [reflexivity|].
  rewrite <- (H x) by (left; reflexivity).
  destruct (f x); [reflexivity|]. apply IH. intros y Hy. apply H. now right.
Qed.

(** X17. A tick reads the petals 0, 2, 4, 6 and 8 only: two inputs that
    agree on them give the same tick. *)
Theorem think_reads_upper_petals (self : Board.t)
  (inc inc' : InputController) (delta_ms : R) :
  (forall i, In i [0; 2; 4; 6; 8]%nat ->
             petal_pressed inc i = petal_pressed inc' i) ->
  Board.think self inc delta_ms = Board.think self inc' delta_ms.
Proof.
  intros Hsame. unfold Board.think, Board.after_moves.
  rewrite !process_input_unfold.
  rewrite (find_ext_in _ _ _ Hsame). reflexivity.
Qed.

Lemma think_reads_upper_petals_witness :
  Board.think Board.init no_input 16 =
  Board.think Board.init {| petal_pressed := fun i => Nat.odd i |} 16.
Proof.
  apply think_reads_upper_petals. intros i Hi. simpl in Hi.
  destruct Hi as [<-|[<-|[<-|[<-|[<-|[]]]]]]; reflexivity.
Defined.


Lemma entry_kept_refl (kp : Z * t) : entry_kept kp kp.
Proof. split; auto. Qed.

Lemma entry_kept_trans (a b c : Z * t) :
  entry_kept a b -> entry_kept b c -> entry_kept a c.
Proof.
  intros [Hk1 Hd1] [Hk2 Hd2]. split; [congruence|].
  intros Hd. destruct (Hd1 Hd) as [Hb Hp]. destruct (Hd2 Hb) as [Hc Hq].
  split; congruence.
Qed.

Lemma Forall2_entry_refl (ps : list (Z * t)) : Forall2 entry_kept ps ps.
Proof. induction ps; constructor; [apply entry_kept_refl|assumption]. Qed.

Lemma Forall2_entry_trans (l1 l2 l3 : list (Z * t)) :
  Forall2 entry_kept l1 l2 -> Forall2 entry_kept l2 l3 ->
  Forall2 entry_kept l1 l3.
Proof.
  intros H. revert l3. induction H as [|a b l1 l2 Hab _ IH]; intros l3 H23.
  - inversion H23. constructor.
  - inversion H23 as [|? c ? l3' Hbc Hrest]; subst. constructor.
    + eapply entry_kept_trans; eassumption.
    + apply IH. exact Hrest.
Qed.

Lemma set_direction_entry (k : Z) (p : t) (d : R) :
  entry_kept (k, p) (k, set_direction p d).
Proof.
  split; [reflexivity|]. simpl. unfold set_direction.
  destruct (Reqb _ 180); [auto|]. destruct (negb _); simpl; auto.
Qed.

Lemma update_player_entries (ps ps' : list (Z * t)) (k : Z) (d : R) :
  Board.update_player ps k (fun p => set_direction p d) = Some ps' ->
  Forall2 entry_kept ps ps'.
Proof.
  revert ps'. induction ps as [|[k' p] ps IH]; intros ps'; simpl;
    [discriminate|].
  destruct (Z.eqb k' k).
  - intros [= <-]. constructor;
      [apply set_direction_entry|apply Forall2_entry_refl].
  - destruct (Board.update_player ps k _) as [rest|]; [|discriminate].
    intros [= <-]. constructor; [apply entry_kept_refl|]. apply IH.
    reflexivity.
Qed.

Lemma update_player_none (ps : list (Z * t)) (k : Z) (f : t -> t) :
  Board.update_player ps k f = None <-> ~ In k (map fst ps).
Proof.
  induction ps as [|[k' p] ps IH]; simpl; [tauto|].
  destruct (Z.eqb k' k) eqn:E.
  - apply Z.eqb_eq in E. split; [discriminate|]. intros H. exfalso. auto.
  - apply Z.eqb_neq in E.
    destruct (Board.update_player ps k f); split.
    + discriminate.
    + intros H. exfalso. apply H. right. apply Decidable.not_not.
      * unfold Decidable.decidable.
        destruct (in_dec Z.eq_dec k (map fst ps)); auto.
      * intros Hn. apply IH in Hn. discriminate.
    + intros _ [H|H]; [congruence|]. apply IH in H; auto.
    + reflexivity.
Qed.

Lemma process_input_entries (self : Board.t) (inc : InputController)
  (ps : list (Z * t)) :
  Board.process_input self inc = Some ps ->
  Forall2 entry_kept (Board.players self) ps.
Proof.
  rewrite process_input_unfold. destruct (find _ _) as [i|].
  - apply update_player_entries.
  - intros [= <-]. apply Forall2_entry_refl.
Qed.

Lemma move_players_entries (ps : list (Z * t)) (delta_ms : R) :
  Forall2 entry_kept ps (Board.move_players ps delta_ms).
Proof.
  unfold Board.move_players. induction ps as [|[k p] ps IH]; simpl;
    constructor; [|exact IH].
  split; [reflexivity|]. simpl. intros Hd. unfold move. rewrite Hd. auto.
Qed.

Lemma checked_entries (moved result : list (Z * t))
  (all : iterable Segment) :
  Forall2 (fun kp kp' =>
             fst kp' = fst kp /\
             check_collision (snd kp) all = Some (snd kp'))
          moved result ->
  Forall2 entry_kept moved result.
Proof.
  induction 1 as [|kp kp' moved result [Hk Hc] _ IH]; constructor;
    [|exact IH].
  split; [exact Hk|]. intros Hd.
  apply check_collision_frame in Hc.
  destruct Hc as (Hp & _ & _ & _ & _ & Hdead). auto.
Qed.

(** Every entry of the dict is kept by a tick. *)
Lemma think_entries (self self' : Board.t) (inc : InputController)
  (delta_ms : R) :
  Board.think self inc delta_ms = Some self' ->
  Forall2 entry_kept (Board.players self) (Board.players self') /\
  Board.local_player self' = Board.local_player self.
Proof.
  unfold Board.think, Board.after_moves.
  destruct (Board.process_input self inc) as [ps|] eqn:Hin; [|discriminate].
  destruct (Board.check_collisions [] (Board.move_players ps delta_ms))
    as [result|] eqn:Hres; [|discriminate].
  intros [= <-]. simpl. split; [|reflexivity].
  apply check_collisions_snapshot in Hres.
  destruct Hres as (checked' & -> & Hall). simpl in Hall |- *.
  eapply Forall2_entry_trans; [eapply process_input_entries; exact Hin|].
  eapply Forall2_entry_trans; [apply move_players_entries|].
  eapply checked_entries. exact Hall.
Qed.

Lemma Forall2_entry_keys (ps ps' : list (Z * t)) :
  Forall2 entry_kept ps ps' -> map fst ps' = map fst ps.
Proof.
  induction 1 as [|a b ps ps' [Hk _] _ IH]; simpl; [reflexivity|].
  rewrite Hk, IH. reflexivity.
Qed.

Lemma Forall2_entry_dead (ps ps' : list (Z * t)) :
  Forall2 entry_kept ps ps' ->
  forallb (fun kp => is_dead (snd kp)) ps = true ->
  forallb (fun kp => is_dead (snd kp)) ps' = true.
Proof.
  induction 1 as [|a b ps ps' [_ Hd] _ IH]; simpl; [auto|].
  rewrite !andb_true_iff. unfold is_dead. intros [Ha Hps].
  split; [apply Hd; exact Ha|apply IH; exact Hps].
Qed.

(** X18. A tick keeps the structure of the board: the same player ids in
    the same order, and the same local player. *)
Theorem think_keeps_players (self self' : Board.t) (inc : InputController)
  (delta_ms : R) :
  Board.think self inc delta_ms = Some self' ->
  map fst (Board.players self') = map fst (Board.players self) /\
  Board.local_player self' = Board.local_player self.
Proof.
  intros H. destruct (think_entries _ _ _ _ H) as [Hall Hlocal].
  split; [apply Forall2_entry_keys; exact Hall|exact Hlocal].
Qed.

(** X19. Once the game is over on a board it stays over: a tick revives
    nobody. *)
Theorem game_over_stays (self self' : Board.t) (inc : InputController)
  (delta_ms : R) :
  Board.game_over self = true ->
  Board.think self inc delta_ms = Some self' ->
  Board.game_over self' = true.
Proof.
  intros Hover H. destruct (think_entries _ _ _ _ H) as [Hall _].
  unfold Board.game_over in *. eapply Forall2_entry_dead; eassumption.
Qed.

End BoardMore.

Section BoardErrors.

Import Player.

Lemma think_keeps_players_witness :
  exists self',
    Board.think Board.init petal_2 16 = Some self' /\
    map fst (Board.players self') = [0%Z] /\
    Board.local_player self' = 0%Z.
Proof.
  destruct (think_total Board.init petal_2 16 init_well_formed)
    as (self' & Hthink & _).
  exists self'. split; [exact Hthink|].
  exact (think_keeps_players Board.init self' petal_2 16 Hthink).
Defined.

Lemma finished_board_well_formed :
  Board.well_formed (TronGame._board finished_game).
Proof.
  split; simpl.
  - repeat constructor; discriminate.
  - left. reflexivity.
Qed.

Lemma game_over_stays_witness :
  Board.game_over (TronGame._board finished_game) = true /\
  exists self',
    Board.think (TronGame._board finished_game) petal_2 16 = Some self' /\
    Board.game_over self' = true.
Proof.
  split; [reflexivity|].
  destruct (think_total _ petal_2 16 finished_board_well_formed)
    as (self' & Hthink & _).
  exists self'. split; [exact Hthink|].
  exact (game_over_stays (TronGame._board finished_game) self' petal_2 16
           eq_refl Hthink).
Defined.

(** X20. The input step of a tick raises exactly when one of the petals
    read is pressed and the local player is not in the dict
    ([KeyError]); with no petal pressed a missing local player goes
    unnoticed and the players are left as they are. *)
Theorem input_raises_iff (self : Board.t) (inc : InputController) :
  (Board.process_input self inc = None <->
   (exists i, find (petal_pressed inc) [0; 2; 4; 6; 8]%nat = Some i) /\
   ~ In (Board.local_player self) (map fst (Board.players self))) /\
  (find (petal_pressed inc) [0; 2; 4; 6; 8]%nat = None ->
   Board.process_input self inc = Some (Board.players self)).
Proof.
  rewrite process_input_unfold.
  destruct (find (petal_pressed inc) [0; 2; 4; 6; 8]%nat) as [i|].
  - split; [|discriminate]. rewrite update_player_none. split.
    + intros Hmiss. split; [exists i; reflexivity|exact Hmiss].
    + intros [_ Hmiss]. exact Hmiss.
  - split; [|reflexivity]. split; [discriminate|].
    intros [[i Hi] _]. discriminate.
Qed.

End BoardErrors.

Section EarlyTurn.

Import Player.

Lemma init_turn (start_pos : Point) (d : R) :
  0 < d < 360 -> d <> 180 ->
  set_direction (init start_pos) d =
  mk start_pos (255, 255, 0)%Z d 60 [start_pos; start_pos] false.
Proof.
  intros Hd Hrev. unfold set_direction, init.
  cbn [_dead _pos _direction _speed _traces _color app].
  replace (d - 0) with d by ring. rewrite pymod_small by lra.
  replace (Reqb d 180) with false by (symmetry; apply Reqb_false_iff; lra).
  replace (Reqb d 0) with false by (symmetry; apply Reqb_false_iff; lra).
  reflexivity.
Qed.

Lemma upper_petal_direction (inc : InputController) (i : nat) :
  find (petal_pressed inc) [0; 2; 4; 6; 8]%nat = Some i -> i <> 0%nat ->
  0 < INR i * 360 / 10 < 360 /\ INR i * 360 / 10 <> 180.
Proof.
  intros Hfind Hi. apply find_some in Hfind. destruct Hfind as [Hin _].
  simpl in Hin.
  destruct Hin as [<-|[<-|[<-|[<-|[<-|[]]]]]]; [congruence| | | |];
    simpl; lra.
Qed.

(** A living player that left the point where it spawned and turned at
    once does not survive the collision check of the tick. *)
Lemma spawn_turn_check (d delta_ms : R) (start_pos : Point) (k : Z)
  (p' : t) :
  0 < delta_ms ->
  let turned :=
    mk start_pos (255, 255, 0)%Z d 60 [start_pos; start_pos] false in
  check_collision (move turned delta_ms)
    (Board.all_traces [(k, move turned delta_ms)]) = Some p' ->
  _dead p' = true.
Proof.
  intros Hdt turned Hc.
  apply (doubled_waypoint_fatal _ _ _ start_pos []) in Hc; [exact Hc| |].
  - destruct (move_frame turned delta_ms) as (_ & _ & _ & -> & _).
    reflexivity.
  - unfold move, turned.
    cbn [_dead _pos _direction _speed _traces _color fst snd].
    set (theta := d * math.tau / 360).
    pose proof (sin2_cos2 theta) as Hunit. unfold Rsqr in Hunit.
    assert (Hv : 0 < 60 * delta_ms / 1000) by lra.
    set (v := 60 * delta_ms / 1000) in *.
    destruct start_pos as [x y]. cbn [fst snd].
    assert (Hmoved : (x + v * sin theta, y - v * cos theta) <> (x, y)).
    { intros E. injection E as Ex Ey.
      assert (Hs : v * sin theta = 0) by lra.
      assert (Hco : v * cos theta = 0) by lra.
      apply Rmult_integral in Hs, Hco.
      destruct Hs as [Hs|Hs]; [lra|]. destruct Hco as [Hco|Hco]; [lra|].
      rewrite Hs, Hco in Hunit. lra. }
    match goal with |- context [if ?c then _ else _] => destruct c end;
      simpl; exact Hmoved.
Qed.

(** X21. On a fresh board a turn in the first frame is fatal: when the
    first pressed petal is not petal 0 and the frame takes time, the
    player is dead at the end of that frame, its doubled spawn waypoint
    counting as a trace it runs over. *)
Theorem first_frame_turn_kills (inc : InputController) (i : nat)
  (delta_ms : R) :
  find (petal_pressed inc) [0; 2; 4; 6; 8]%nat = Some i ->
  i <> 0%nat -> 0 < delta_ms ->
  exists board,
    Board.think Board.init inc delta_ms = Some board /\
    Board.game_over board = true.
Proof.
  intros Hfind Hi Hdt.
  destruct (think_total Board.init inc delta_ms init_well_formed)
    as (board & Hthink & _).
  exists board. split; [exact Hthink|].
  unfold Board.think, Board.after_moves in Hthink.
  rewrite process_input_unfold, Hfind in Hthink.
  change (Board.update_player (Board.players Board.init)
            (Board.local_player Board.init)
            (fun p => set_direction p (INR i * 360 / 10)))
    with (Some [(0%Z, set_direction (init (-50, 0)) (INR i * 360 / 10))])
    in Hthink.
  destruct (upper_petal_direction inc i Hfind Hi) as [Hd Hrev].
  rewrite (init_turn _ _ Hd Hrev) in Hthink.
  unfold Board.move_players in Hthink. cbn [map fst snd] in Hthink.
  cbn [Board.check_collisions app] in Hthink.
  match type of Hthink with
  | match match check_collision ?m ?all with _ => _ end with _ => _ end = _ =>
      destruct (check_collision m all) as [p'|] eqn:Hc; [|discriminate]
  end.
  injection Hthink as <-.
  unfold Board.game_over, is_dead. simpl. rewrite andb_true_r.
  exact (spawn_turn_check _ _ _ _ _ Hdt Hc).
Qed.

Lemma first_frame_turn_kills_witness :
  exists board,
    Board.think Board.init petal_2 16 = Some board /\
    Board.game_over board = true.
Proof.
  apply (first_frame_turn_kills petal_2 2%nat 16).
  - reflexivity.
  - discriminate.
  - lra.
Defined.

(** X22. A lone player that has never turned cannot collide: while no
    petal read is pressed, a tick of its board is the move alone, so only
    the boundary can kill it. *)
Theorem straight_run_only_moves (self : Board.t) (inc : InputController)
  (delta_ms : R) (k : Z) (p : t) (w : Point) :
  Board.players self = [(k, p)] -> _traces p = [w] ->
  find (petal_pressed inc) [0; 2; 4; 6; 8]%nat = None ->
  Board.think self inc delta_ms =
  Some (Board.mk [(k, move p delta_ms)] (Board.local_player self)).
Proof.
  intros Hps Htr Hfind. unfold Board.think, Board.after_moves.
  rewrite process_input_unfold, Hfind, Hps.
  unfold Board.move_players. cbn [map fst snd Board.check_collisions app].
  assert (Hm : _traces (move p delta_ms) = [w]).
  { destruct (move_frame p delta_ms) as (_ & _ & _ & -> & _). exact Htr. }
  set (m := move p delta_ms) in *.
  assert (Hc : check_collision m (Board.all_traces [(k, m)]) = Some m).
  { unfold check_collision, my_latest_trace, Board.all_traces, get_traces.
    simpl. rewrite Hm. simpl.
    destruct (_dead m); [reflexivity|].
    unfold check_trace.
    replace (Segment_eqb (w, _pos m) (w, _pos m)) with true
      by (symmetry; apply Segment_eqb_true_iff; reflexivity).
    reflexivity. }
  rewrite Hc. reflexivity.
Qed.

Lemma straight_run_only_moves_witness :
  Board.think Board.init no_input 1000 =
  Some (Board.mk [(0%Z, move (init (-50, 0)) 1000)] 0%Z).
Proof.
  exact (straight_run_only_moves Board.init no_input 1000 0%Z
           (init (-50, 0)) (-50, 0) eq_refl eq_refl eq_refl).
Defined.

End EarlyTurn.

(** ** TronGame from its start *)

Section FromTheStart.

Import TronGame.

Lemma think_game_over (g g' : t) (inc : InputController) (delta_ms : R)
  (now : Z) :
  think g inc delta_ms now = Some g' ->
  Board.game_over (_board g) = true -> Board.game_over (_board g') = true.
Proof.
  unfold think.
  destruct (Board.think (_board g) inc delta_ms) as [board|] eqn:Hb;
    [|discriminate].
  intros Hg Hover.
  assert (Hboard : Board.game_over board = true).
  { destruct (think_entries _ _ _ _ Hb) as [Hall _].
    unfold Board.game_over in *. eapply Forall2_entry_dead; eassumption. }
  rewrite Hboard in Hg.
  destruct (negb (_done g)); injection Hg as <-; exact Hboard.
Qed.

Lemma run_invariant (frames : list frame) (g : t) :
  Board.well_formed (_board g) ->
  (_done g = true -> Board.game_over (_board g) = true) ->
  exists g',
    run g frames = Some g' /\
    Board.well_formed (_board g') /\
    _start_time g' = _start_time g /\
    (_done g' = true -> Board.game_over (_board g') = true) /\
    ((_done g' = _done g /\ _duration g' = _duration g) \/
     (_done g = false /\ _done g' = true /\
      exists f, In f frames /\
                _duration g' = IZR (snd f - _start_time g) / 10 ^ 9)).
Proof.
  revert g. induction frames as [|[[inc delta_ms] now] frames IH];
    intros g Hwf Hinv; simpl.
  - exists g. split; [reflexivity|]. split; [exact Hwf|]. auto.
  - destruct (think_step g inc delta_ms now Hwf)
      as (next & Hthink & Hwf' & Hstart & Hkeep & Hfirst).
    rewrite Hthink.
    assert (Hinv' : _done next = true ->
                    Board.game_over (_board next) = true).
    { intros Hd. destruct (_done g) eqn:Hdg.
      - apply (think_game_over _ _ _ _ _ Hthink). apply Hinv. reflexivity.
      - destruct (Hfirst eq_refl) as (Heq & _). congruence. }
    destruct (IH next Hwf' Hinv')
      as (g' & Hrun & Hwfg & Hst & Hinvg & Hcases).
    exists g'. split; [exact Hrun|]. split; [exact Hwfg|].
    split; [congruence|]. split; [exact Hinvg|].
    destruct (_done g) eqn:Hdg.
    + destruct (Hkeep eq_refl) as [Hdn Hdur]. left.
      destruct Hcases as [[H1 H2]|(H1 & _)]; [split; congruence|congruence].
    + destruct (Hfirst eq_refl) as (_ & Hcap & Hsame).
      destruct Hcases as [[H1 H2]|(H1 & H2 & f & Hin & Hdur)].
      * destruct (_done next) eqn:Hdn.
        -- right. split; [reflexivity|]. split; [congruence|].
           exists (inc, delta_ms, now). split; [left; reflexivity|].
           simpl. rewrite H2. apply Hcap. reflexivity.
        -- left. split; [congruence|]. rewrite H2. apply Hsame. reflexivity.
      * right. split; [reflexivity|]. split; [exact H2|].
        exists f. split; [right; exact Hin|]. rewrite Hdur, Hstart.
        reflexivity.
Qed.

(** X23. After any frames that a game started by [TronGame()] gets
    through: the start time is the one taken at construction; while the
    game is not done its duration is 0; once it is done its board is
    over. *)
Theorem fresh_game_run (now : Z) (frames : list frame) (g : t) :
  run (init now) frames = Some g ->
  _start_time g = now /\
  (_done g = false -> _duration g = 0) /\
  (_done g = true -> Board.game_over (_board g) = true).
Proof.
  intros Hg.
  destruct (run_invariant frames (init now) init_well_formed)
    as (g' & Hrun & _ & Hstart & Hinv & Hcases); [discriminate|].
  rewrite Hg in Hrun. injection Hrun as <-.
  simpl in *. split; [exact Hstart|]. split.
  - intros Hd. destruct Hcases as [[_ H]|(_ & H & _)]; congruence.
  - exact Hinv.
Qed.

Lemma fresh_game_run_witness :
  exists g,
    run (init 5) [(petal_2, 16, 9%Z); (no_input, 16, 12%Z)] = Some g /\
    _start_time g = 5%Z /\
    (_done g = false -> _duration g = 0) /\
    (_done g = true -> Board.game_over (_board g) = true).
Proof.
  destruct (run_total [(petal_2, 16, 9%Z); (no_input, 16, 12%Z)] (init 5)
              init_well_formed) as (g & Hg & _).
  exists g. split; [exact Hg|].
  exact (fresh_game_run 5 _ g Hg).
Defined.

End FromTheStart.

(** ** chain *)

(** X25. [chain] raises exactly when one of its iterables does, and
    otherwise yields their values one list after the other. *)
Theorem chain_concat (A : Type) (iters : list (iterable A)) :
  (chain iters = None <-> In None iters) /\
  (forall lists, iters = map Some lists ->
                 chain iters = Some (concat lists)).
Proof.
  split.
  - induction iters as [|i iters IH]; simpl.
    + split; [discriminate|tauto].
    + destruct i as [xs|].
      * destruct (chain iters) as [ys|].
        -- split; [discriminate|]. intros [H|H]; [discriminate|].
           apply IH in H. discriminate.
        -- split; [|reflexivity]. intros _. right. apply IH. reflexivity.
      * split; [|reflexivity]. intros _. left. reflexivity.
  - intros lists ->. induction lists as [|l lists IH]; simpl;
      [reflexivity|]. rewrite IH. reflexivity.
Qed.

(** * Properties of the program on binary64 floats *)

(** ** Comparisons of floats *)

Lemma SFcompare_swap (a b : spec_float) :
  SFcompare b a = option_map CompOpp (SFcompare a b).
Proof.
  destruct a as [sa|sa| |sa ma ea], b as [sb|sb| |sb mb eb]; simpl;
    try reflexivity; try (destruct sa; reflexivity);
    try (destruct sb; reflexivity);
    try (destruct sa, sb; reflexivity).
  destruct sa, sb; simpl; try reflexivity;
    rewrite (Z.compare_antisym ea eb); destruct (ea ?= eb)%Z; simpl;
    try reflexivity;
    rewrite (Pos.compare_cont_antisym ma mb Eq); simpl; reflexivity.
Qed.

Lemma float_eqb_sym (x y : float) : PrimFloat.eqb x y = PrimFloat.eqb y x.
Proof.
  rewrite !FloatAxioms.eqb_spec. unfold SFeqb.
  rewrite (SFcompare_swap (Prim2SF x) (Prim2SF y)).
  destruct (SFcompare (Prim2SF x) (Prim2SF y)) as [[| |]|]; reflexivity.
Qed.


Lemma f64_Point_eqb_sym (p q : f64.Point) :
  f64.Point_eqb p q = f64.Point_eqb q p.
Proof.
  unfold f64.Point_eqb.
  rewrite (float_eqb_sym (fst p)), (float_eqb_sym (snd p)). reflexivity.
Qed.

Lemma f64_Segment_eqb_sym (s t : f64.Segment) :
  f64.Segment_eqb s t = f64.Segment_eqb t s.
Proof.
  unfold f64.Segment_eqb.
  rewrite (f64_Point_eqb_sym (fst s)), (f64_Point_eqb_sym (snd s)).
  reflexivity.
Qed.

(** ** collides on floats *)




(** ** Zeros of float arithmetic *)













(** ** Segments that share an end point *)








(** ** Exact values of floats *)

Lemma to_R_neg (x : float) (s : bool) (m p : positive) (n d : Z) :
  Prim2SF x = S754_finite s m (Zneg p) ->
  cond_Zopp s (Zpos m) = n -> Z.pow_pos 2 p = d ->
  to_R x = IZR n / IZR d.
Proof.
  intros Hx <- <-. unfold to_R. rewrite Hx. unfold Rdiv. f_equal.
  unfold powerRZ. f_equal. rewrite Z.pow_pos_fold.
  rewrite <- (positive_nat_Z p), <- pow_IZR. reflexivity.
Qed.

Lemma to_R_pos (x : float) (s : bool) (m p : positive) (n : Z) :
  Prim2SF x = S754_finite s m (Zpos p) ->
  (cond_Zopp s (Zpos m) * Z.pow_pos 2 p)%Z = n ->
  to_R x = IZR n.
Proof.
  intros Hx <-. unfold to_R. rewrite Hx. rewrite mult_IZR. f_equal.
  unfold powerRZ. rewrite Z.pow_pos_fold.
  rewrite <- (positive_nat_Z p), <- pow_IZR. reflexivity.
Qed.

Lemma to_R_zero_exp (x : float) (s : bool) (m : positive) (n : Z) :
  Prim2SF x = S754_finite s m 0 -> cond_Zopp s (Zpos m) = n ->
  to_R x = IZR n.
Proof. intros Hx <-. unfold to_R. rewrite Hx. simpl. ring. Qed.

Lemma to_R_zero (x : float) (s : bool) :
  Prim2SF x = S754_zero s -> to_R x = 0.
Proof. intros Hx. unfold to_R. rewrite Hx. reflexivity. Qed.

(** Replaces [to_R c], for a float constant [c], by its exact value. *)
Ltac to_R_eval :=
  repeat match goal with
  | |- context [to_R ?c] =>
      let v := eval vm_compute in (Prim2SF c) in
      lazymatch v with
      | S754_zero ?s =>
          rewrite (to_R_zero c s) by (vm_compute; reflexivity)
      | S754_finite ?s ?m (Zneg ?p) =>
          let n := eval vm_compute in (cond_Zopp s (Zpos m)) in
          let d := eval vm_compute in (Z.pow_pos 2 p) in
          rewrite (to_R_neg c s m p n d) by (vm_compute; reflexivity)
      | S754_finite ?s ?m (Zpos ?p) =>
          let n := eval vm_compute in
                     (cond_Zopp s (Zpos m) * Z.pow_pos 2 p)%Z in
          rewrite (to_R_pos c s m p n) by (vm_compute; reflexivity)
      | S754_finite ?s ?m Z0 =>
          let n := eval vm_compute in (cond_Zopp s (Zpos m)) in
          rewrite (to_R_zero_exp c s m n) by (vm_compute; reflexivity)
      end
  end.

(** ** Player.move on floats *)

Section MoveOnFloats.

Import f64.Player.





(** A frame of 1e160 ms: the position is stored, the square overflows and
    the player stays alive. *)
Example move_overflows (m : f64.libm) :
  f64.exact_at_zero m ->
  move m grazer 0x1.6c2d4256ffcc3p+531 =
  Raised f64.OverflowError
    (mk (0x1.ad7f29abcaf48p-24, -0x1.5d9c16b9eb536p+527)%float
        (255, 255, 0)%Z 0%float 60%float
        [(0x1.ad7f29abcaf48p-24, 0)%float] false).
Proof.
  intros [Hsin Hcos]. unfold move, grazer, f64.math_sin, f64.math_cos.
  cbn [_dead _pos _direction _speed _traces _color fst snd].
  change ((0 * f64.tau / 360)%float) with 0%float.
  change (PrimFloat.is_infinity 0) with false. cbv iota.
  rewrite Hsin, Hcos. vm_compute. reflexivity.
Qed.

(** ** Player.set_direction on floats *)




End MoveOnFloats.

(** ** A tick on floats *)

Section TickOnFloats.

Import f64.Player.

Lemma f64_check_trace_hits (latest : f64.Segment) (self : t)
  (trace : f64.Segment) :
  check_trace latest self trace =
  if f64.hits latest trace then die self else self.
Proof.
  unfold check_trace, f64.hits.
  destruct (f64.Segment_eqb trace latest), (f64.collides latest trace);
    reflexivity.
Qed.

Lemma f64_check_loop_frame (latest : f64.Segment)
  (traces : list f64.Segment) (self : t) :
  let self' := fold_left (check_trace latest) traces self in
  _pos self' = _pos self /\ _traces self' = _traces self /\
  _dead self' = _dead self || existsb (f64.hits latest) traces.
Proof.
  revert self. induction traces as [|trace traces IH]; intros self; simpl.
  - rewrite orb_false_r. tauto.
  - specialize (IH (check_trace latest self trace)). simpl in IH.
    destruct IH as (-> & -> & ->). rewrite f64_check_trace_hits.
    destruct (f64.hits latest trace); simpl; rewrite ?orb_true_r; tauto.
Qed.

Lemma f64_check_collision_frame (self self' : t)
  (all_traces : iterable f64.Segment) :
  check_collision self all_traces = Some self' ->
  _pos self' = _pos self /\ _traces self' = _traces self /\
  (_dead self = true -> _dead self' = true).
Proof.
  unfold check_collision. destruct (_dead self) eqn:E.
  - intros [= <-]. tauto.
  - destruct (my_latest_trace self) as [latest|]; [|discriminate].
    destruct all_traces as [traces|]; [|discriminate].
    intros [= <-].
    destruct (f64_check_loop_frame latest traces self) as (-> & -> & _).
    repeat split; congruence.
Qed.

Lemma f64_last_trace_some (traces : list f64.Point) :
  traces <> [] -> exists l, last_trace traces = Some l.
Proof.
  induction traces as [|q traces IH]; [congruence|]. intros _.
  destruct traces as [|q' traces]; [now exists q|].
  apply IH. discriminate.
Qed.

Lemma f64_pair_up_app (first : f64.Point) (rest : list f64.Point)
  (l p : f64.Point) :
  last_trace (first :: rest) = Some l ->
  pair_up first (rest ++ [p]) = pair_up first rest ++ [(l, p)].
Proof.
  revert first. induction rest as [|q rest IH]; intros first.
  - intros [= ->]. reflexivity.
  - change (last_trace (first :: q :: rest)) with (last_trace (q :: rest)).
    intros Hl. cbn [app pair_up]. rewrite (IH q Hl). reflexivity.
Qed.

(** [get_traces] ends with the live segment. *)
Lemma f64_get_traces_live (self : t) (latest : f64.Segment) :
  my_latest_trace self = Some latest ->
  exists completed, get_traces self = Some (completed ++ [latest]).
Proof.
  unfold my_latest_trace, get_traces.
  destruct (_traces self) as [|first rest]; [discriminate|].
  destruct (last_trace (first :: rest)) as [l|] eqn:Hl; [|discriminate].
  intros [= <-]. exists (pair_up first rest).
  rewrite (f64_pair_up_app _ _ _ _ Hl). reflexivity.
Qed.

Lemma f64_get_traces_ext (p q : t) :
  _traces q = _traces p -> _pos q = _pos p -> get_traces q = get_traces p.
Proof. unfold get_traces. intros -> ->. reflexivity. Qed.

Lemma f64_all_traces_replace (checked rest : list (Z * t)) (k : Z)
  (p p' : t) :
  get_traces p' = get_traces p ->
  f64.Board.all_traces (checked ++ (k, p') :: rest) =
  f64.Board.all_traces (checked ++ (k, p) :: rest).
Proof.
  intros E. unfold f64.Board.all_traces.
  induction checked as [|kq checked IH]; simpl.
  - rewrite E. reflexivity.
  - rewrite IH. reflexivity.
Qed.

(** Every collision check of a tick sees the traces of the players as
    they are after the moves. *)
Lemma f64_check_collisions_snapshot (todo checked result : list (Z * t)) :
  f64.Board.check_collisions checked todo = Some result ->
  exists checked',
    result = checked ++ checked' /\
    Forall2 (fun kp kp' =>
               fst kp' = fst kp /\
               check_collision (snd kp)
                 (f64.Board.all_traces (checked ++ todo)) = Some (snd kp'))
            todo checked'.
Proof.
  revert checked. induction todo as [|[k p] rest IH]; intros checked; simpl.
  - intros [= <-]. exists []. rewrite app_nil_r. split; constructor.
  - destruct (check_collision p
                (f64.Board.all_traces (checked ++ (k, p) :: rest)))
      as [p'|] eqn:Hp; [|discriminate].
    intros Hrest. apply IH in Hrest. destruct Hrest as (checked' & -> & Hall).
    assert (Hsame : get_traces p' = get_traces p).
    { apply f64_check_collision_frame in Hp.
      apply f64_get_traces_ext; tauto. }
    rewrite <- app_assoc in Hall. cbn [app] in Hall.
    rewrite (f64_all_traces_replace _ _ _ _ _ Hsame) in Hall.
    exists ((k, p') :: checked'). split.
    + rewrite <- app_assoc. reflexivity.
    + constructor; [split; [reflexivity|exact Hp]|exact Hall].
Qed.

Lemma f64_all_traces_incl (ps : list (Z * t)) (all : list f64.Segment)
  (i : nat) (k : Z) (p : t) (traces : list f64.Segment) :
  f64.Board.all_traces ps = Some all -> nth_error ps i = Some (k, p) ->
  get_traces p = Some traces -> incl traces all.
Proof.
  unfold f64.Board.all_traces. revert all i.
  induction ps as [|[k' q] ps IH]; intros all i; [destruct i; discriminate|].
  simpl. destruct (get_traces q) as [tq|] eqn:Hq; [|discriminate].
  destruct (chain (map (fun kp => get_traces (snd kp)) ps)) as [tail|] eqn:Ht;
    [|discriminate].
  intros [= <-]. destruct i as [|i]; simpl.
  - intros [= -> ->] Hp. rewrite Hq in Hp. injection Hp as ->.
    apply incl_appl, incl_refl.
  - intros Hn Hp. apply incl_appr. eapply IH; eauto.
Qed.

Lemma f64_all_traces_total (ps : list (Z * t)) :
  Forall f64.has_waypoint ps ->
  exists all, f64.Board.all_traces ps = Some all.
Proof.
  unfold f64.Board.all_traces. induction 1 as [|[k p] ps Hp _ [all IH]]; simpl.
  - now exists [].
  - rewrite IH. unfold get_traces. unfold f64.has_waypoint in Hp.
    simpl in Hp. destruct (_traces p); [congruence|]. eexists. reflexivity.
Qed.

Lemma f64_check_collisions_total (todo checked : list (Z * t)) :
  Forall f64.has_waypoint (checked ++ todo) ->
  exists result, f64.Board.check_collisions checked todo = Some result.
Proof.
  revert checked. induction todo as [|[k p] rest IH]; intros checked Hwf;
    simpl.
  - eexists. reflexivity.
  - destruct (f64_all_traces_total _ Hwf) as [all ->].
    assert (Hp : _traces p <> []).
    { apply Forall_app in Hwf. destruct Hwf as [_ Hwf].
      inversion Hwf; assumption. }
    assert (Hc : exists p', check_collision p (Some all) = Some p').
    { unfold check_collision, my_latest_trace.
      destruct (_dead p); [eexists; reflexivity|].
      destruct (f64_last_trace_some _ Hp) as [l ->]. eexists. reflexivity. }
    destruct Hc as [p' Hp']. rewrite Hp'.
    apply IH. rewrite <- app_assoc. cbn [app].
    apply Forall_app in Hwf. destruct Hwf as [Hc Ht].
    apply Forall_app. split; [exact Hc|].
    inversion Ht; subst. constructor; [|assumption].
    apply f64_check_collision_frame in Hp'. unfold f64.has_waypoint. simpl.
    destruct Hp' as (_ & -> & _). exact Hp.
Qed.

Lemma f64_move_traces (m : f64.libm) (p p' : t) (delta_ms : float) :
  move m p delta_ms = Returned p' -> _traces p' = _traces p.
Proof.
  unfold move. destruct (_dead p); [intros [= <-]; reflexivity|].
  destruct (f64.math_sin m _) as [s|]; [|discriminate].
  destruct (f64.math_cos m _) as [c|]; [|discriminate].
  destruct (f64.pow2 _) as [xx|]; [|discriminate].
  destruct (f64.pow2 _) as [yy|]; [|discriminate].
  destruct (PrimFloat.ltb 14400 (xx + yy)); intros [= <-]; reflexivity.
Qed.

Lemma f64_move_players_waypoints (m : f64.libm) (ps moved : list (Z * t))
  (delta_ms : float) :
  f64.Board.move_players m ps delta_ms = Some moved ->
  Forall f64.has_waypoint ps -> Forall f64.has_waypoint moved.
Proof.
  revert moved. induction ps as [|[k p] ps IH]; intros moved; simpl.
  - intros [= <-] _. constructor.
  - destruct (move m p delta_ms) as [p'|] eqn:Hp; [|discriminate].
    destruct (f64.Board.move_players m ps delta_ms) as [rest|];
      [|discriminate].
    intros [= <-] Hwf. inversion Hwf as [|? ? Hk Hps]; subst.
    constructor; [|apply IH; auto].
    unfold f64.has_waypoint in *. simpl in *.
    rewrite (f64_move_traces _ _ _ _ Hp). exact Hk.
Qed.

Lemma f64_update_player_waypoints (ps ps' : list (Z * t)) (k : Z)
  (d : float) :
  f64.Board.update_player ps k (fun p => set_direction p d) = Some ps' ->
  Forall f64.has_waypoint ps -> Forall f64.has_waypoint ps'.
Proof.
  revert ps'. induction ps as [|[k' p] ps IH]; intros ps'; simpl;
    [discriminate|].
  intros H Hwf. inversion Hwf as [|? ? Hp Hps]; subst.
  destruct (Z.eqb k' k).
  - injection H as <-. constructor; [|exact Hps].
    unfold f64.has_waypoint in *. simpl in *. unfold set_direction.
    destruct (PrimFloat.eqb _ 180); [exact Hp|].
    destruct (negb _); [|exact Hp]. simpl.
    intros E. apply app_eq_nil in E. destruct E; discriminate.
  - destruct (f64.Board.update_player ps k _) as [rest|]; [|discriminate].
    injection H as <-. constructor; [exact Hp|]. apply IH; auto.
Qed.

Lemma f64_after_moves_waypoints (m : f64.libm) (self : f64.Board.t)
  (inc : InputController) (delta_ms : float) (moved : list (Z * t)) :
  f64.Board.after_moves m self inc delta_ms = Some moved ->
  Forall f64.has_waypoint (f64.Board.players self) ->
  Forall f64.has_waypoint moved.
Proof.
  unfold f64.Board.after_moves, f64.Board.process_input.
  destruct (find _ _) as [i|].
  - destruct (f64.Board.update_player _ _ _) as [ps|] eqn:Hup;
      [|discriminate].
    intros Hm Hwf. eapply f64_move_players_waypoints; [exact Hm|].
    eapply f64_update_player_waypoints; eassumption.
  - intros Hm Hwf. eapply f64_move_players_waypoints; eassumption.
Qed.

Lemma f64_check_collision_hit (p p' : t) (all : list f64.Segment)
  (latest trace : f64.Segment) :
  check_collision p (Some all) = Some p' ->
  my_latest_trace p = Some latest ->
  In trace all -> f64.Segment_eqb trace latest = false ->
  f64.collides latest trace = true ->
  _dead p' = true.
Proof.
  intros Hc Hl Hin Hne Hcol.
  destruct (_dead p) eqn:Hdead.
  - apply f64_check_collision_frame in Hc. apply Hc. exact Hdead.
  - unfold check_collision in Hc. rewrite Hdead, Hl in Hc.
    injection Hc as <-.
    destruct (f64_check_loop_frame latest all p) as (_ & _ & ->).
    rewrite Hdead. simpl. apply existsb_exists. exists trace.
    split; [exact Hin|]. unfold f64.hits. rewrite Hne, Hcol. reflexivity.
Qed.

(** C2, as the code has it.  In a tick whose moves raise nothing, every
    move is made before the first collision check and every check reads
    the same traces, those of the players after the moves; so two players
    whose live segments differ and are each reported by [collides] as
    colliding with the other are both dead at the end of the tick,
    whatever their order in the dict. *)
Theorem simultaneous_death_binary64 (m : f64.libm) (self : f64.Board.t)
  (inc : InputController) (delta_ms : float) (moved : list (Z * t)) :
  Forall f64.has_waypoint (f64.Board.players self) ->
  f64.Board.after_moves m self inc delta_ms = Some moved ->
  exists all self',
    f64.Board.all_traces moved = Some all /\
    f64.Board.think m self inc delta_ms = Some self' /\
    Forall2 (fun kp kp' =>
               fst kp' = fst kp /\
               check_collision (snd kp) (Some all) = Some (snd kp'))
            moved (f64.Board.players self') /\
    forall i j ki kj pi pj li lj,
      nth_error moved i = Some (ki, pi) ->
      nth_error moved j = Some (kj, pj) ->
      my_latest_trace pi = Some li ->
      my_latest_trace pj = Some lj ->
      f64.Segment_eqb li lj = false ->
      f64.collides li lj = true -> f64.collides lj li = true ->
      exists pi' pj',
        nth_error (f64.Board.players self') i = Some (ki, pi') /\
        nth_error (f64.Board.players self') j = Some (kj, pj') /\
        _dead pi' = true /\ _dead pj' = true.
Proof.
  intros Hwf Hmoved.
  pose proof (f64_after_moves_waypoints _ _ _ _ _ Hmoved Hwf) as Hm.
  destruct (f64_all_traces_total moved Hm) as [all Hall].
  destruct (f64_check_collisions_total moved [] Hm) as [result Hres].
  exists all, (f64.Board.mk result (f64.Board.local_player self)).
  assert (Hsnap :
    Forall2 (fun kp kp' =>
               fst kp' = fst kp /\
               check_collision (snd kp) (Some all) = Some (snd kp'))
            moved result).
  { pose proof (f64_check_collisions_snapshot _ _ _ Hres)
      as (checked' & -> & Hsnap).
    simpl in Hsnap |- *. rewrite Hall in Hsnap. exact Hsnap. }
  split; [exact Hall|]. split.
  { unfold f64.Board.think. rewrite Hmoved, Hres. reflexivity. }
  split; [exact Hsnap|]. cbn [f64.Board.players].
  intros i j ki kj pi pj li lj Hi Hj Hli Hlj Hne Hij Hji.
  destruct (Forall2_nth_error_left _ _ _ _ _ Hsnap Hi)
    as ([ki' pi'] & Hi' & Hki & Hci).
  destruct (Forall2_nth_error_left _ _ _ _ _ Hsnap Hj)
    as ([kj' pj'] & Hj' & Hkj & Hcj).
  simpl in Hki, Hkj, Hci, Hcj. subst ki' kj'.
  exists pi', pj'. split; [exact Hi'|]. split; [exact Hj'|].
  assert (Hin : forall n k p l, nth_error moved n = Some (k, p) ->
                                my_latest_trace p = Some l -> In l all).
  { intros n k p l Hn Hl.
    destruct (f64_get_traces_live p l Hl) as [completed Hget].
    apply (f64_all_traces_incl moved all n k p _ Hall Hn Hget).
    apply in_or_app. right. left. reflexivity. }
  split.
  - apply (f64_check_collision_hit pi pi' all li lj Hci Hli).
    + exact (Hin j kj pj lj Hj Hlj).
    + rewrite f64_Segment_eqb_sym. exact Hne.
    + exact Hij.
  - apply (f64_check_collision_hit pj pj' all lj li Hcj Hlj).
    + exact (Hin i ki pi li Hi Hli).
    + exact Hne.
    + exact Hji.
Qed.

End TickOnFloats.

Section TickExamples.

Import f64.Player.

(** One move of a living player heading north, with any C library. *)
Lemma f64_move_north (m : f64.libm) (self : t) (delta_ms : float) :
  f64.exact_at_zero m -> _dead self = false ->
  _direction self = 0%float ->
  move m self delta_ms =
  move north_only self delta_ms.
Proof.
  intros [Hsin Hcos] Halive Hdir. unfold move.
  rewrite Halive, Hdir. unfold f64.math_sin, f64.math_cos.
  change ((0 * f64.tau / 360)%float) with 0%float.
  change (PrimFloat.is_infinity 0) with false. cbv iota.
  rewrite Hsin, Hcos. reflexivity.
Qed.

Lemma near_board_moves (m : f64.libm) :
  f64.exact_at_zero m ->
  f64.Board.after_moves m near_board no_input 16 =
  Some [(0%Z, near_a_moved); (1%Z, near_b_moved)].
Proof.
  intros Hzero. unfold f64.Board.after_moves.
  change (f64.Board.process_input near_board no_input)
    with (Some [(0%Z, near_a); (1%Z, near_b)]).
  cbn [f64.Board.move_players].
  rewrite (f64_move_north m near_a 16 Hzero eq_refl eq_refl).
  rewrite (f64_move_north m near_b 16 Hzero eq_refl eq_refl).
  vm_compute. reflexivity.
Qed.

Lemma near_board_tick (m : f64.libm) :
  f64.exact_at_zero m ->
  f64.Board.think m near_board no_input 16 =
  Some (f64.Board.mk [(0%Z, near_a_moved); (1%Z, near_b_moved)] 0%Z).
Proof.
  intros Hzero. unfold f64.Board.think.
  rewrite (near_board_moves m Hzero). vm_compute. reflexivity.
Qed.

Lemma crosses_negative (a b : Segment) :
  numerator a b < 0 ->
  numerator a b < denominator_a a b < 0 ->
  numerator a b < denominator_b a b < 0 ->
  crosses a b.
Proof.
  intros Hn [Ha1 Ha2] [Hb1 Hb2]. unfold crosses, u_a, u_b.
  split; [lra|].
  assert (Hinv : / numerator a b < 0) by (apply Rinv_lt_0_compat; exact Hn).
  assert (Hone : numerator a b * / numerator a b = 1)
    by (apply Rinv_r; lra).
  unfold Rdiv. repeat split; nra.
Qed.

(** C2 on [north_board]: the live segments cross at the origin and both
    players are dead 16 ms later. *)
Lemma simultaneous_death_binary64_witness :
  exists self' pa pb,
    f64.Board.think north_only north_board no_input 16 = Some self' /\
    nth_error (f64.Board.players self') 0 = Some (0%Z, pa) /\
    nth_error (f64.Board.players self') 1 = Some (1%Z, pb) /\
    _dead pa = true /\ _dead pb = true.
Proof.
  assert (Hwf : Forall f64.has_waypoint (f64.Board.players north_board)).
  { repeat constructor; discriminate. }
  assert (Hm : f64.Board.after_moves north_only north_board no_input 16 =
               Some [(0%Z, north_a_moved); (1%Z, north_b_moved)]).
  { vm_compute. reflexivity. }
  destruct (simultaneous_death_binary64 north_only north_board no_input 16
              _ Hwf Hm)
    as (all & self' & _ & Hthink & _ & Hdeath).
  destruct (Hdeath 0%nat 1%nat 0%Z 1%Z north_a_moved north_b_moved
              ((-50, 0), (50, 0))%float ((0, -50), (0, 50))%float
              eq_refl eq_refl eq_refl eq_refl eq_refl eq_refl eq_refl)
    as (pa & pb & Ha & Hb & Hda & Hdb).
  exists self', pa, pb. tauto.
Defined.

(** C2 fails as stated: 16 ms after [near_board], whatever the C
    library, the live segments of the two players cross, at the middle
    of the second and just before the end of the first, and nobody is
    dead: the computed [u_a] is 1. *)
Lemma crossing_missed :
  my_latest_trace near_a_moved = Some near_live_a /\
  my_latest_trace near_b_moved = Some near_live_b /\
  crosses (f64.exact near_live_a) (f64.exact near_live_b) /\
  ~ exists m : f64.libm,
      f64.exact_at_zero m /\
      (f64.Board.after_moves m near_board no_input 16 <>
       Some [(0%Z, near_a_moved); (1%Z, near_b_moved)] \/
       exists self',
         f64.Board.think m near_board no_input 16 = Some self' /\
         existsb (fun kp => _dead (snd kp)) (f64.Board.players self') = true).
Proof.
  split; [reflexivity|]. split; [reflexivity|]. split.
  - apply crosses_negative;
      unfold f64.exact, near_live_a, near_live_b, numerator, denominator_a,
        denominator_b; cbn [fst snd]; to_R_eval; lra.
  - intros (m & Hzero & [Hm|(self' & Hthink & Hdead)]).
    + apply Hm. apply near_board_moves. exact Hzero.
    + rewrite (near_board_tick m Hzero) in Hthink. injection Hthink as <-.
      discriminate.
Qed.

End TickExamples.

(** ** A turn without a displacement *)

Section StandingTurn.

Import f64.Player.

Lemma f64_move_outcome_traces (m : f64.libm) (self : t) (delta_ms : float) :
  match move m self delta_ms with
  | Returned p | Raised _ p => _traces p = _traces self
  end.
Proof.
  unfold move. destruct (_dead self); [reflexivity|]. cbv zeta.
  unfold f64.math_sin, f64.math_cos.
  destruct (PrimFloat.is_infinity _); [reflexivity|].
  destruct (f64.pow2 _); [|reflexivity].
  destruct (f64.pow2 _); [|reflexivity].
  destruct (PrimFloat.ltb _ _); reflexivity.
Qed.

(** C7 at the failing inputs.  A turn is stored with the position as it
    is, also when the position is the last waypoint.  After
    [set_direction(90)] on a fresh player and a move of any length,
    whether it returns or raises, the first segment is the zero-length
    segment at the spawn point.  After [move(1000)],
    [set_direction(90)], [set_direction(0)] and [move(500)] the player
    is at (-50, -90), 90 pixels from the spawn point, and the second of
    its three segments has length zero. *)
Theorem zero_length_segment_stored (m : f64.libm) :
  f64.exact_at_zero m ->
  (forall delta_ms,
     match move m (set_direction (init (-50, 0)%float) 90) delta_ms with
     | Returned p | Raised _ p =>
         get_traces p =
         Some [((-50, 0), (-50, 0))%float; ((-50, 0)%float, _pos p)]
     end) /\
  exists p q,
    move m (init (-50, 0)%float) 1000 = Returned p /\
    move m (set_direction (set_direction p 90) 0) 500 = Returned q /\
    _dead q = false /\
    get_traces q =
    Some [((-50, 0), (-50, -60))%float;
          ((-50, -60), (-50, -60))%float;
          ((-50, -60), (-50, -90))%float].
Proof.
  intros Hzero. split.
  - intros delta_ms.
    pose proof (f64_move_outcome_traces m
                  (set_direction (init (-50, 0)%float) 90) delta_ms) as H.
    destruct (move m _ delta_ms) as [p|e p];
      unfold get_traces; rewrite H; reflexivity.
  - exists (mk (-50, -60)%float (255, 255, 0)%Z 0%float 60%float
              [(-50, 0)%float] false),
           (mk (-50, -90)%float (255, 255, 0)%Z 0%float 60%float
              [(-50, 0)%float; (-50, -60)%float; (-50, -60)%float] false).
    split; [|split; [|split; reflexivity]].
    + rewrite (f64_move_north m (init (-50, 0)%float) 1000 Hzero
                 eq_refl eq_refl).
      vm_compute. reflexivity.
    + change (set_direction (set_direction _ 90) 0)
        with (mk (-50, -60)%float (255, 255, 0)%Z 0%float 60%float
                [(-50, 0)%float; (-50, -60)%float; (-50, -60)%float] false).
      rewrite (f64_move_north m
                 (mk (-50, -60)%float (255, 255, 0)%Z 0%float 60%float
                    [(-50, 0)%float; (-50, -60)%float; (-50, -60)%float]
                    false) 500 Hzero eq_refl eq_refl).
      vm_compute. reflexivity.
Qed.

(** C7 with a C library of which only the values at zero are used. *)
Lemma zero_length_segment_stored_witness :
  exists q,
    move north_only
      (set_direction
         (set_direction
            (mk (-50, -60)%float (255, 255, 0)%Z 0%float 60%float
               [(-50, 0)%float] false) 90) 0) 500 = Returned q /\
    get_traces q =
    Some [((-50, 0), (-50, -60))%float;
          ((-50, -60), (-50, -60))%float;
          ((-50, -60), (-50, -90))%float].
Proof.
  destruct (zero_length_segment_stored north_only (conj eq_refl eq_refl))
    as (_ & p & q & Hp & Hq & _ & Htr).
  injection Hp as <-. exists q. split; [exact Hq|exact Htr].
Defined.

End StandingTurn.

(** ** The directions of the petals *)

Section PetalTurns.

Import f64.Player.

Lemma petal_directions_apart (i j : nat) :
  In i [0; 2; 4; 6; 8]%nat -> In j [0; 2; 4; 6; 8]%nat -> i <> j ->
  PrimFloat.eqb
    (f64.pymod (f64.Board.petal_direction i - f64.Board.petal_direction j)
       360) 180 = false /\
  PrimFloat.eqb (f64.Board.petal_direction i) (f64.Board.petal_direction j)
  = false.
Proof.
  simpl. intros Hi Hj Hne.
  repeat (destruct Hi as [<-|Hi]; [|]); try contradiction;
    repeat (destruct Hj as [<-|Hj]; [|]); try contradiction;
    try congruence; vm_compute; split; reflexivity.
Qed.

(** X26. The game never asks for a reversal: the directions of two
    different petals among 0, 2, 4, 6, 8 are never 180 degrees apart as
    [set_direction] computes it, so a player heading in the direction of
    one petal always turns when another one is pressed. *)
Theorem petal_press_turns (self : t) (i j : nat) :
  In i [0; 2; 4; 6; 8]%nat -> In j [0; 2; 4; 6; 8]%nat -> i <> j ->
  _direction self = f64.Board.petal_direction j ->
  set_direction self (f64.Board.petal_direction i) =
  mk (_pos self) (_color self) (f64.Board.petal_direction i) (_speed self)
     (_traces self ++ [_pos self]) (_dead self).
Proof.
  intros Hi Hj Hne Hdir.
  destruct (petal_directions_apart i j Hi Hj Hne) as [Hrev Hsame].
  unfold set_direction. rewrite Hdir, Hrev, Hsame. reflexivity.
Qed.

Lemma petal_press_turns_witness :
  set_direction
    (mk (-50, -60)%float (255, 255, 0)%Z 288%float 60%float
        [(-50, 0)%float] false) 72 =
  mk (-50, -60)%float (255, 255, 0)%Z 72%float 60%float
     [(-50, 0)%float; (-50, -60)%float] false.
Proof.
  refine (petal_press_turns
            (mk (-50, -60)%float (255, 255, 0)%Z 288%float 60%float
                [(-50, 0)%float] false) 2 8 _ _ _ eq_refl).
  - simpl. tauto.
  - simpl. tauto.
  - discriminate.
Defined.

End PetalTurns.
